(** * go-csp: the Content-Security-Policy codec and the violation-report handler

    A shallow embedding of [csp.go] (policy model, [MarshalText],
    [UnmarshalText], the header middleware) and of the report endpoint
    ([RouteHandler] with its two pluggable hooks), together with the parts of
    Go's [strings], [encoding/json] and [net/http] contracts the code relies
    on.  Go strings are byte sequences; they are modelled as [list ascii]. *)

From Stdlib Require Import String Ascii List Bool Arith ZArith Lia.
Import ListNotations.

Set Warnings "-register-all".

Local Open Scope char_scope.
Local Open Scope nat_scope.
Local Open Scope list_scope.

(** ** Go strings *)

Definition gostring := list ascii.

(** A string literal of the source. *)
Definition lit (s : String.string) : gostring := list_ascii_of_string s.
Arguments lit s%_string.

Module strings.

(** [a == b] on strings. *)
Fixpoint eqb (a b : gostring) : bool :=
  match a, b with
  | [], [] => true
  | x :: a', y :: b' => Ascii.eqb x y && eqb a' b'
  | _, _ => false
  end.

(** [strings.Join(elems, sep)]. *)
Fixpoint Join (elems : list gostring) (sep : gostring) : gostring :=
  match elems with
  | [] => []
  | [e] => e
  | e :: rest => e ++ sep ++ Join rest sep
  end.

(** Prepends a byte to the first piece of a split. *)
Definition consHead (x : ascii) (l : list gostring) : list gostring :=
  match l with
  | [] => [[x]]
  | p :: ps => (x :: p) :: ps
  end.

(** [strings.Split(s, sep)] for a one-byte separator [sep]: the pieces
    between consecutive occurrences of [sep]; one more piece than there
    are separators, so the empty string splits into one empty piece. *)
Fixpoint Split (s : gostring) (sep : ascii) : list gostring :=
  match s with
  | [] => [[]]
  | x :: s' =>
      if Ascii.eqb x sep then [] :: Split s' sep
      else consHead x (Split s' sep)
  end.

(** [strings.SplitN(s, sep, n)] for a one-byte separator and [n >= 0]:
    at most [n] pieces, the last one being the unsplit remainder; [n = 0]
    gives no piece at all. *)
Fixpoint SplitN (s : gostring) (sep : ascii) (n : nat) {struct s}
  : list gostring :=
  match s with
  | [] => match n with 0 => [] | S _ => [[]] end
  | x :: s' =>
      match n with
      | 0 => []
      | 1 => [s]
      | S n' =>
          if Ascii.eqb x sep then [] :: SplitN s' sep n'
          else consHead x (SplitN s' sep n)
      end
  end.

(** [p] is a prefix of [s]: what is left of [s] after it. *)
Fixpoint cutPrefix (p s : gostring) : option gostring :=
  match p, s with
  | [], _ => Some s
  | a :: p', b :: s' => if Ascii.eqb a b then cutPrefix p' s' else None
  | _ :: _, [] => None
  end.

Definition b (n : nat) : ascii := ascii_of_nat n.

(** The UTF-8 encodings of the runes for which [unicode.IsSpace] holds:
    the six ASCII ones, U+0085, U+00A0, U+1680, U+2000..U+200A, U+2028,
    U+2029, U+202F, U+205F and U+3000.  A byte sequence that does not decode
    to one of these runes (an invalid byte decodes to U+FFFD) is no space. *)
Definition spaceRunes : list gostring :=
  [ [b 9]; [b 10]; [b 11]; [b 12]; [b 13]; [b 32];
    [b 194; b 133]; [b 194; b 160];
    [b 225; b 154; b 128];
    [b 226; b 128; b 128]; [b 226; b 128; b 129]; [b 226; b 128; b 130];
    [b 226; b 128; b 131]; [b 226; b 128; b 132]; [b 226; b 128; b 133];
    [b 226; b 128; b 134]; [b 226; b 128; b 135]; [b 226; b 128; b 136];
    [b 226; b 128; b 137]; [b 226; b 128; b 138];
    [b 226; b 128; b 168]; [b 226; b 128; b 169]; [b 226; b 128; b 175];
    [b 226; b 129; b 159];
    [b 227; b 128; b 128] ].

(** Removes one leading element of the table [tbl] from [s], if there is
    one. *)
Fixpoint dropOne (tbl : list gostring) (s : gostring) : option gostring :=
  match tbl with
  | [] => None
  | e :: tbl' =>
      match cutPrefix e s with
      | Some r => Some r
      | None => dropOne tbl' s
      end
  end.

Fixpoint trimFuel (tbl : list gostring) (fuel : nat) (s : gostring)
  : gostring :=
  match fuel with
  | 0 => s
  | S fuel' =>
      match dropOne tbl s with
      | Some r => trimFuel tbl fuel' r
      | None => s
      end
  end.

(** [strings.TrimLeftFunc(s, unicode.IsSpace)]: every removal takes at
    least one byte, so [length s] rounds are enough. *)
Definition TrimLeftSpace (s : gostring) : gostring :=
  trimFuel spaceRunes (length s) s.

(** The same encodings, each read from its last byte. *)
Definition revRunes : list gostring := map (@rev ascii) spaceRunes.

(** [strings.TrimRightFunc(s, unicode.IsSpace)]: the same from the end. *)
Definition TrimRightSpace (s : gostring) : gostring :=
  rev (trimFuel revRunes (length s) (rev s)).

(** [strings.TrimSpace(s)]: [s] without leading and trailing white
    space, as Unicode defines it. *)
Definition TrimSpace (s : gostring) : gostring :=
  TrimRightSpace (TrimLeftSpace s).

End strings.

(** [fmt.Sprintf("%s %s", a, b)]. *)
Definition Sprintf_s_s (a b : gostring) : gostring := a ++ " " :: b.

(** ** Constants of [csp.go] *)

Definition HeaderPolicy : gostring := lit "Content-Security-Policy".
Definition HeaderReport : gostring := lit "Content-Security-Policy-Report".
Definition HeaderReportOnly : gostring :=
  lit "Content-Security-Policy-Report-Only".
Definition ReportContentType : gostring := lit "application/csp-report".

Definition SourceNone : gostring := lit "'none'".
Definition SourceSelf : gostring := lit "'self'".
Definition SourceAny : gostring := lit "*".

Definition childSrc : gostring := lit "child-src".
Definition connectSrc : gostring := lit "connect-src".
Definition defaultSrc : gostring := lit "default-src".
Definition fontSrc : gostring := lit "font-src".
Definition frameSrc : gostring := lit "frame-src".
Definition imgSrc : gostring := lit "img-src".
Definition manifestSrc : gostring := lit "manifest-src".
Definition mediaSrc : gostring := lit "media-src".
Definition objectSrc : gostring := lit "object-src".
Definition scriptSrc : gostring := lit "script-src".
Definition styleSrc : gostring := lit "style-src".
Definition workerSrc : gostring := lit "worker-src".
Definition reportTo : gostring := lit "report-to".

(** ** Go's [error] values *)

Module json_errors.
(** The two kinds of error [json.Unmarshal] returns: the input is not
    one well-formed JSON value ([*json.SyntaxError]), or a JSON value does
    not fit the Go type it is decoded into ([*json.UnmarshalTypeError]). *)
Inductive t := SyntaxError | UnmarshalTypeError.
End json_errors.

Inductive error :=
| errorString (msg : gostring)      (* errors.New, fmt.Errorf, I/O errors *)
| jsonError (e : json_errors.t).    (* what encoding/json returns *)

(** ** [net/http]: headers, requests, the response writer *)

Module http.

Definition StatusOK : Z := 200.
Definition StatusBadRequest : Z := 400.
Definition StatusUnsupportedMediaType : Z := 415.
Definition StatusInternalServerError : Z := 500.

Definition isLower (c : ascii) : bool :=
  (97 <=? nat_of_ascii c) && (nat_of_ascii c <=? 122).
Definition isUpper (c : ascii) : bool :=
  (65 <=? nat_of_ascii c) && (nat_of_ascii c <=? 90).
Definition isDigit (c : ascii) : bool :=
  (48 <=? nat_of_ascii c) && (nat_of_ascii c <=? 57).

(** The bytes of an HTTP token (RFC 7230). *)
Definition validHeaderFieldByte (c : ascii) : bool :=
  isLower c || isUpper c || isDigit c
  || existsb (Ascii.eqb c) (lit "!#$%&'*+-.^_`|~").

Fixpoint canonicalize (upper : bool) (s : gostring) : gostring :=
  match s with
  | [] => []
  | c :: s' =>
      let c' :=
        if upper && isLower c then ascii_of_nat (nat_of_ascii c - 32)
        else if negb upper && isUpper c then ascii_of_nat (nat_of_ascii c + 32)
        else c in
      c' :: canonicalize (Ascii.eqb c' "-") s'
  end.

(** [textproto.CanonicalMIMEHeaderKey]: a key made of token bytes gets an
    upper-case first letter and an upper-case letter after each dash, the
    other letters lower-case; any other key is left as it is. *)
Definition CanonicalMIMEHeaderKey (s : gostring) : gostring :=
  if forallb validHeaderFieldByte s then canonicalize true s else s.

(** [http.Header], a [map[string][]string]. *)
Definition Header := list (gostring * list gostring).

Fixpoint lookup (h : Header) (k : gostring) : option (list gostring) :=
  match h with
  | [] => None
  | (k', v) :: h' => if strings.eqb k' k then Some v else lookup h' k
  end.

Definition delete (h : Header) (k : gostring) : Header :=
  filter (fun kv => negb (strings.eqb (fst kv) k)) h.

(** [h.Get(key)]: the first value under the canonical key, or the
    empty string. *)
Definition Get (h : Header) (key : gostring) : gostring :=
  match lookup h (CanonicalMIMEHeaderKey key) with
  | Some (v :: _) => v
  | _ => []
  end.

(** [h.Set(key, value)]: the canonical key now holds [value] alone. *)
Definition Set_ (h : Header) (key value : gostring) : Header :=
  (CanonicalMIMEHeaderKey key, [value])
    :: delete h (CanonicalMIMEHeaderKey key).

(** What [ioutil.ReadAll(r.Body)] gives: the whole body, or an error. *)
Inductive Body :=
| BodyBytes (data : gostring)
| BodyError (err : error).

Record Request := mkRequest {
  ReqHeader : Header;
  ReqBody : Body
}.

(** The state of an [http.ResponseWriter], as
    [httptest.ResponseRecorder] records it.  (The Content-Type sniffing of
    the first [Write] is not modelled.) *)
Record ResponseWriter := mkResponseWriter {
  Code : Z;
  HeaderMap : Header;
  RespBody : gostring;
  wroteHeader : bool
}.

(** [httptest.NewRecorder()]. *)
Definition NewRecorder : ResponseWriter :=
  mkResponseWriter 200 [] [] false.

(** [w.WriteHeader(code)]: only the first status counts, a later call is
    ignored; a first call with a code outside 100..999 panics ([None]). *)
Definition WriteHeader (w : ResponseWriter) (code : Z)
  : option ResponseWriter :=
  if wroteHeader w then Some w
  else if ((code <? 100) || (999 <? code))%Z then None
  else Some (mkResponseWriter code (HeaderMap w) (RespBody w) true).

(** [w.Write(buf)]: when no status was written yet, [WriteHeader(200)]
    comes first; then the bytes are appended to the body. *)
Definition Write (w : ResponseWriter) (buf : gostring) : ResponseWriter :=
  let code := if wroteHeader w then Code w else StatusOK in
  mkResponseWriter code (HeaderMap w) (RespBody w ++ buf) true.

(** [w.Header().Set(key, value)]. *)
Definition SetHeader (w : ResponseWriter) (key value : gostring)
  : ResponseWriter :=
  mkResponseWriter (Code w) (Set_ (HeaderMap w) key value) (RespBody w)
    (wroteHeader w).

(** An [http.Handler]: what its [ServeHTTP] does to the response;
    [None] when it panics. *)
Definition Handler := ResponseWriter -> Request -> option ResponseWriter.

End http.

(** ** The policy model *)

(** [SourceList], a [[]string].  A nil slice and an empty one are the
    same list here: the code tells them apart nowhere, it only takes the
    length. *)
Definition SourceList := list gostring.

Record CSP := mkCSP {
  ReportOnly : bool;
  ChildSrc : SourceList;
  ConnectSrc : SourceList;
  DefaultSrc : SourceList;
  FontSrc : SourceList;
  FrameSrc : SourceList;
  ImgSrc : SourceList;
  ManifestSrc : SourceList;
  MediaSrc : SourceList;
  ObjectSrc : SourceList;
  ScriptSrc : SourceList;
  StyleSrc : SourceList;
  WorkerSrc : SourceList;
  ReportTo : gostring;
  h : option http.Handler
}.

(** [CSP{}]: the zero value. *)
Definition zeroCSP : CSP :=
  mkCSP false [] [] [] [] [] [] [] [] [] [] [] [] [] None.

Definition NewSourceList (sources : list gostring) : SourceList := sources.

(** [SourceList.MarshalText]. *)
Definition SourceList_MarshalText (s : SourceList) : gostring * option error :=
  (strings.Join s (lit " "), None).

(** [UnmarshalText] of a source list: the new value of the list. *)
Definition SourceList_UnmarshalText (text : gostring)
  : SourceList * option error :=
  (strings.Split text " ", None).

Definition Default : CSP :=
  mkCSP false
    [] (NewSourceList [SourceSelf]) (NewSourceList [SourceNone]) [] []
    (NewSourceList [SourceSelf]) [] [] []
    (NewSourceList [SourceSelf]) (NewSourceList [SourceSelf]) []
    [] None.

(** One block of [MarshalText]: a non-empty source list adds the entry
    [name ++ " " ++ tokens] to [policies]. *)
Definition appendSources (policies : list gostring) (name : gostring)
  (l : SourceList) : list gostring :=
  if negb (length l =? 0) then
    let (txt, _) := SourceList_MarshalText l in
    policies ++ [Sprintf_s_s name txt]
  else policies.

(** [(c *CSP) MarshalText()]. *)
Definition MarshalText (c : CSP) : gostring * option error :=
  let policies : list gostring := [] in
  let policies := appendSources policies defaultSrc (DefaultSrc c) in
  let policies := appendSources policies childSrc (ChildSrc c) in
  let policies := appendSources policies connectSrc (ConnectSrc c) in
  let policies := appendSources policies fontSrc (FontSrc c) in
  let policies := appendSources policies frameSrc (FrameSrc c) in
  let policies := appendSources policies imgSrc (ImgSrc c) in
  let policies := appendSources policies manifestSrc (ManifestSrc c) in
  let policies := appendSources policies mediaSrc (MediaSrc c) in
  let policies := appendSources policies objectSrc (ObjectSrc c) in
  let policies := appendSources policies scriptSrc (ScriptSrc c) in
  let policies := appendSources policies styleSrc (StyleSrc c) in
  let policies := appendSources policies workerSrc (WorkerSrc c) in
  let policies :=
    if negb (strings.eqb (ReportTo c) []) then
      policies ++ [Sprintf_s_s reportTo (ReportTo c)]
    else policies in
  (strings.TrimSpace (strings.Join policies (lit "; ")), None).

(** Field assignments. *)
Definition set_ChildSrc (v : SourceList) (c : CSP) : CSP :=
  mkCSP (ReportOnly c) v (ConnectSrc c) (DefaultSrc c) (FontSrc c)
    (FrameSrc c) (ImgSrc c) (ManifestSrc c) (MediaSrc c) (ObjectSrc c)
    (ScriptSrc c) (StyleSrc c) (WorkerSrc c) (ReportTo c) (h c).
Definition set_ConnectSrc (v : SourceList) (c : CSP) : CSP :=
  mkCSP (ReportOnly c) (ChildSrc c) v (DefaultSrc c) (FontSrc c)
    (FrameSrc c) (ImgSrc c) (ManifestSrc c) (MediaSrc c) (ObjectSrc c)
    (ScriptSrc c) (StyleSrc c) (WorkerSrc c) (ReportTo c) (h c).
Definition set_DefaultSrc (v : SourceList) (c : CSP) : CSP :=
  mkCSP (ReportOnly c) (ChildSrc c) (ConnectSrc c) v (FontSrc c)
    (FrameSrc c) (ImgSrc c) (ManifestSrc c) (MediaSrc c) (ObjectSrc c)
    (ScriptSrc c) (StyleSrc c) (WorkerSrc c) (ReportTo c) (h c).
Definition set_FontSrc (v : SourceList) (c : CSP) : CSP :=
  mkCSP (ReportOnly c) (ChildSrc c) (ConnectSrc c) (DefaultSrc c) v
    (FrameSrc c) (ImgSrc c) (ManifestSrc c) (MediaSrc c) (ObjectSrc c)
    (ScriptSrc c) (StyleSrc c) (WorkerSrc c) (ReportTo c) (h c).
Definition set_FrameSrc (v : SourceList) (c : CSP) : CSP :=
  mkCSP (ReportOnly c) (ChildSrc c) (ConnectSrc c) (DefaultSrc c) (FontSrc c)
    v (ImgSrc c) (ManifestSrc c) (MediaSrc c) (ObjectSrc c)
    (ScriptSrc c) (StyleSrc c) (WorkerSrc c) (ReportTo c) (h c).
Definition set_ImgSrc (v : SourceList) (c : CSP) : CSP :=
  mkCSP (ReportOnly c) (ChildSrc c) (ConnectSrc c) (DefaultSrc c) (FontSrc c)
    (FrameSrc c) v (ManifestSrc c) (MediaSrc c) (ObjectSrc c)
    (ScriptSrc c) (StyleSrc c) (WorkerSrc c) (ReportTo c) (h c).
Definition set_ManifestSrc (v : SourceList) (c : CSP) : CSP :=
  mkCSP (ReportOnly c) (ChildSrc c) (ConnectSrc c) (DefaultSrc c) (FontSrc c)
    (FrameSrc c) (ImgSrc c) v (MediaSrc c) (ObjectSrc c)
    (ScriptSrc c) (StyleSrc c) (WorkerSrc c) (ReportTo c) (h c).
Definition set_MediaSrc (v : SourceList) (c : CSP) : CSP :=
  mkCSP (ReportOnly c) (ChildSrc c) (ConnectSrc c) (DefaultSrc c) (FontSrc c)
    (FrameSrc c) (ImgSrc c) (ManifestSrc c) v (ObjectSrc c)
    (ScriptSrc c) (StyleSrc c) (WorkerSrc c) (ReportTo c) (h c).
Definition set_ObjectSrc (v : SourceList) (c : CSP) : CSP :=
  mkCSP (ReportOnly c) (ChildSrc c) (ConnectSrc c) (DefaultSrc c) (FontSrc c)
    (FrameSrc c) (ImgSrc c) (ManifestSrc c) (MediaSrc c) v
    (ScriptSrc c) (StyleSrc c) (WorkerSrc c) (ReportTo c) (h c).
Definition set_ScriptSrc (v : SourceList) (c : CSP) : CSP :=
  mkCSP (ReportOnly c) (ChildSrc c) (ConnectSrc c) (DefaultSrc c) (FontSrc c)
    (FrameSrc c) (ImgSrc c) (ManifestSrc c) (MediaSrc c) (ObjectSrc c)
    v (StyleSrc c) (WorkerSrc c) (ReportTo c) (h c).
Definition set_StyleSrc (v : SourceList) (c : CSP) : CSP :=
  mkCSP (ReportOnly c) (ChildSrc c) (ConnectSrc c) (DefaultSrc c) (FontSrc c)
    (FrameSrc c) (ImgSrc c) (ManifestSrc c) (MediaSrc c) (ObjectSrc c)
    (ScriptSrc c) v (WorkerSrc c) (ReportTo c) (h c).
Definition set_WorkerSrc (v : SourceList) (c : CSP) : CSP :=
  mkCSP (ReportOnly c) (ChildSrc c) (ConnectSrc c) (DefaultSrc c) (FontSrc c)
    (FrameSrc c) (ImgSrc c) (ManifestSrc c) (MediaSrc c) (ObjectSrc c)
    (ScriptSrc c) (StyleSrc c) v (ReportTo c) (h c).
Definition set_ReportTo (v : gostring) (c : CSP) : CSP :=
  mkCSP (ReportOnly c) (ChildSrc c) (ConnectSrc c) (DefaultSrc c) (FontSrc c)
    (FrameSrc c) (ImgSrc c) (ManifestSrc c) (MediaSrc c) (ObjectSrc c)
    (ScriptSrc c) (StyleSrc c) (WorkerSrc c) v (h c).
Definition set_h (v : option http.Handler) (c : CSP) : CSP :=
  mkCSP (ReportOnly c) (ChildSrc c) (ConnectSrc c) (DefaultSrc c) (FontSrc c)
    (FrameSrc c) (ImgSrc c) (ManifestSrc c) (MediaSrc c) (ObjectSrc c)
    (ScriptSrc c) (StyleSrc c) (WorkerSrc c) (ReportTo c) v.

(** The body of the loop of [UnmarshalText], for one piece [p] of the
    text. *)
Definition unmarshalPolicy (c : CSP) (p : gostring) : CSP :=
  let l := strings.SplitN (strings.TrimSpace p) " " 2 in
  if strings.eqb p [] || negb (length l =? 2) then c
  else
    let k := strings.TrimSpace (nth 0 l []) in
    let v := strings.TrimSpace (nth 1 l []) in
    if strings.eqb k childSrc then
      set_ChildSrc (fst (SourceList_UnmarshalText v)) c
    else if strings.eqb k connectSrc then
      set_ConnectSrc (fst (SourceList_UnmarshalText v)) c
    else if strings.eqb k defaultSrc then
      set_DefaultSrc (fst (SourceList_UnmarshalText v)) c
    else if strings.eqb k fontSrc then
      set_FontSrc (fst (SourceList_UnmarshalText v)) c
    else if strings.eqb k frameSrc then
      set_FrameSrc (fst (SourceList_UnmarshalText v)) c
    else if strings.eqb k imgSrc then
      set_ImgSrc (fst (SourceList_UnmarshalText v)) c
    else if strings.eqb k manifestSrc then
      set_ManifestSrc (fst (SourceList_UnmarshalText v)) c
    else if strings.eqb k mediaSrc then
      set_MediaSrc (fst (SourceList_UnmarshalText v)) c
    else if strings.eqb k objectSrc then
      set_ObjectSrc (fst (SourceList_UnmarshalText v)) c
    else if strings.eqb k scriptSrc then
      set_ScriptSrc (fst (SourceList_UnmarshalText v)) c
    else if strings.eqb k styleSrc then
      set_StyleSrc (fst (SourceList_UnmarshalText v)) c
    else if strings.eqb k workerSrc then
      set_WorkerSrc (fst (SourceList_UnmarshalText v)) c
    else if strings.eqb k reportTo then
      set_ReportTo v c
    else c.

(** [(c *CSP) UnmarshalText(text)]: the receiver after the call, and the
    error returned. *)
Definition UnmarshalText (c : CSP) (text : gostring) : CSP * option error :=
  let policies := strings.Split text ";" in
  (fold_left unmarshalPolicy policies c, None).

(** [(c *CSP) ServeHTTP(w, r)]: the response writer after the call; [None]
    when the call panics (no wrapped handler, or the wrapped handler
    panics). *)
Definition ServeHTTP (c : CSP) (w : http.ResponseWriter) (r : http.Request)
  : option http.ResponseWriter :=
  let key := if ReportOnly c then HeaderReportOnly else HeaderPolicy in
  let (val, err) := MarshalText c in
  match err with
  | Some _ => Some w
  | None =>
      let w := http.SetHeader w key val in
      match h c with
      | Some next => next w r
      | None => None
      end
  end.

(** [(c *CSP) Handler(h)]: the receiver after the call, and the handler
    returned, which is the receiver itself. *)
Definition Handler (c : CSP) (next : http.Handler) : CSP * http.Handler :=
  let c := set_h (Some next) c in
  (c, ServeHTTP c).

(** ** [encoding/json], as far as the report endpoint uses it *)

Module json.

Definition byteZ (c : ascii) : Z := Z.of_N (N_of_ascii c).
Definition ofZ (z : Z) : ascii := ascii_of_N (Z.to_N z).

(** The double quote. *)
Definition quote : ascii := ofZ 34.
Definition inRange (lo hi : Z) (c : ascii) : bool :=
  ((lo <=? byteZ c) && (byteZ c <=? hi))%Z.

(** A JSON value; a number keeps its literal text. *)
Inductive value :=
| Null
| Bool (v : bool)
| Number (text : gostring)
| String (s : gostring)
| Array (elems : list value)
| Object (members : list (gostring * value)).

(** *** UTF-8 *)

(** [utf8.EncodeRune]; a surrogate or a value above U+10FFFF is encoded
    as U+FFFD. *)
Definition EncodeRune (r : Z) : gostring :=
  (if r <? 0 then [ofZ 239; ofZ 191; ofZ 189]
   else if r <? 128 then [ofZ r]
   else if r <? 2048 then
     [ofZ (Z.lor 192 (Z.shiftr r 6)); ofZ (Z.lor 128 (Z.land r 63))]
   else if ((55296 <=? r) && (r <=? 57343)) || (1114111 <? r) then
     [ofZ 239; ofZ 191; ofZ 189]
   else if r <? 65536 then
     [ofZ (Z.lor 224 (Z.shiftr r 12));
      ofZ (Z.lor 128 (Z.land (Z.shiftr r 6) 63));
      ofZ (Z.lor 128 (Z.land r 63))]
   else
     [ofZ (Z.lor 240 (Z.shiftr r 18));
      ofZ (Z.lor 128 (Z.land (Z.shiftr r 12) 63));
      ofZ (Z.lor 128 (Z.land (Z.shiftr r 6) 63));
      ofZ (Z.lor 128 (Z.land r 63))])%Z.

Definition cont (c : ascii) : bool := inRange 128 191 c.

(** The well-formed two-, three- and four-byte sequences of UTF-8, as
    [utf8.DecodeRune] accepts them (no overlong form, no surrogate,
    nothing above U+10FFFF). *)
Definition valid2 (c1 c2 : ascii) : bool := inRange 194 223 c1 && cont c2.
Definition valid3 (c1 c2 c3 : ascii) : bool :=
  ((Ascii.eqb c1 (ofZ 224) && inRange 160 191 c2)
   || (inRange 225 236 c1 && cont c2)
   || (Ascii.eqb c1 (ofZ 237) && inRange 128 159 c2)
   || (inRange 238 239 c1 && cont c2))
  && cont c3.
Definition valid4 (c1 c2 c3 c4 : ascii) : bool :=
  ((Ascii.eqb c1 (ofZ 240) && inRange 144 191 c2)
   || (inRange 241 243 c1 && cont c2)
   || (Ascii.eqb c1 (ofZ 244) && inRange 128 143 c2))
  && cont c3 && cont c4.

Definition replacementChar : gostring := [ofZ 239; ofZ 191; ofZ 189].

(** *** The scanner *)

Definition isSpace (c : ascii) : bool :=
  Ascii.eqb c " " || Ascii.eqb c (ofZ 9) || Ascii.eqb c (ofZ 13)
  || Ascii.eqb c (ofZ 10).

Fixpoint skipSpace (s : gostring) : gostring :=
  match s with
  | c :: s' => if isSpace c then skipSpace s' else s
  | [] => []
  end.

Definition hexVal (c : ascii) : option Z :=
  if inRange 48 57 c then Some (byteZ c - 48)%Z
  else if inRange 97 102 c then Some (byteZ c - 87)%Z
  else if inRange 65 70 c then Some (byteZ c - 55)%Z
  else None.

(** [getu4]: the value of four hexadecimal digits. *)
Definition hex4 (a b c d : ascii) : option Z :=
  match hexVal a, hexVal b, hexVal c, hexVal d with
  | Some x, Some y, Some z, Some w =>
      Some (((x * 16 + y) * 16 + z) * 16 + w)%Z
  | _, _, _, _ => None
  end.

Definition isSurrogate (r : Z) : bool := ((55296 <=? r) && (r <? 57344))%Z.

(** [utf16.DecodeRune]: the code point of a surrogate pair, if it is
    one. *)
Definition decodePair (r1 r2 : Z) : option Z :=
  (if (55296 <=? r1) && (r1 <? 56320) && (56320 <=? r2) && (r2 <? 57344)
   then Some (Z.lor (Z.shiftl (r1 - 55296) 10) (r2 - 56320) + 65536)
   else None)%Z.

Definition emit (bytes : gostring) (k : option (gostring * gostring))
  : option (gostring * gostring) :=
  match k with
  | Some (str, rest) => Some (bytes ++ str, rest)
  | None => None
  end.

(** The rest of a string literal after its opening quote: the string it
    denotes (escapes replaced, every byte that is not part of well-formed
    UTF-8 replaced by U+FFFD, as [unquote] does) and the input after the
    closing quote.  A control byte, a bad escape or a missing closing quote
    is a syntax error. *)
Fixpoint scanString (s : gostring) : option (gostring * gostring) :=
  match s with
  | [] => None
  | c :: s1 =>
      if Ascii.eqb c quote then Some ([], s1)
      else if Ascii.eqb c "\" then
        match s1 with
        | [] => None
        | e :: s2 =>
            if Ascii.eqb e quote || Ascii.eqb e "\" || Ascii.eqb e "/"
            then emit [e] (scanString s2)
            else if Ascii.eqb e "b" then emit [ofZ 8] (scanString s2)
            else if Ascii.eqb e "f" then emit [ofZ 12] (scanString s2)
            else if Ascii.eqb e "n" then emit [ofZ 10] (scanString s2)
            else if Ascii.eqb e "r" then emit [ofZ 13] (scanString s2)
            else if Ascii.eqb e "t" then emit [ofZ 9] (scanString s2)
            else if Ascii.eqb e "u" then
              match s2 with
              | x1 :: x2 :: x3 :: x4 :: s3 =>
                  match hex4 x1 x2 x3 x4 with
                  | None => None
                  | Some rr =>
                      if isSurrogate rr then
                        match s3 with
                        | b1 :: b2 :: y1 :: y2 :: y3 :: y4 :: s4 =>
                            match
                              (if Ascii.eqb b1 "\" && Ascii.eqb b2 "u"
                               then hex4 y1 y2 y3 y4 else None)
                            with
                            | Some rr1 =>
                                match decodePair rr rr1 with
                                | Some dec =>
                                    emit (EncodeRune dec) (scanString s4)
                                | None =>
                                    emit replacementChar (scanString s3)
                                end
                            | None => emit replacementChar (scanString s3)
                            end
                        | _ => emit replacementChar (scanString s3)
                        end
                      else emit (EncodeRune rr) (scanString s3)
                  end
              | _ => None
              end
            else None
        end
      else if (byteZ c <? 32)%Z then None
      else if (byteZ c <? 128)%Z then emit [c] (scanString s1)
      else
        match s1 with
        | c2 :: s2 =>
            if valid2 c c2 then emit [c; c2] (scanString s2)
            else
              match s2 with
              | c3 :: s3 =>
                  if valid3 c c2 c3 then emit [c; c2; c3] (scanString s3)
                  else
                    match s3 with
                    | c4 :: s4 =>
                        if valid4 c c2 c3 c4
                        then emit [c; c2; c3; c4] (scanString s4)
                        else emit replacementChar (scanString s1)
                    | [] => emit replacementChar (scanString s1)
                    end
              | [] => emit replacementChar (scanString s1)
              end
        | [] => emit replacementChar (scanString s1)
        end
  end.

Definition isDigit (c : ascii) : bool := inRange 48 57 c.

(** The longest run of digits at the head of [s], and what follows. *)
Fixpoint takeDigits (s : gostring) : gostring * gostring :=
  match s with
  | c :: s' =>
      if isDigit c then
        let (ds, rest) := takeDigits s' in (c :: ds, rest)
      else ([], s)
  | [] => ([], [])
  end.

(** The integer part of a number: [0], or a digit from 1 to 9 followed
    by digits. *)
Definition scanInt (s : gostring) : option (gostring * gostring) :=
  match s with
  | c :: s' =>
      if Ascii.eqb c "0" then Some ([c], s')
      else if isDigit c then
        let (ds, rest) := takeDigits s' in Some (c :: ds, rest)
      else None
  | [] => None
  end.

(** An optional fraction: a dot and at least one digit. *)
Definition scanFrac (s : gostring) : option (gostring * gostring) :=
  match s with
  | c :: s' =>
      if Ascii.eqb c "." then
        match takeDigits s' with
        | ([], _) => None
        | (ds, rest) => Some (c :: ds, rest)
        end
      else Some ([], s)
  | [] => Some ([], [])
  end.

(** An optional exponent: [e] or [E], an optional sign, and at least
    one digit. *)
Definition scanExp (s : gostring) : option (gostring * gostring) :=
  match s with
  | c :: s' =>
      if Ascii.eqb c "e" || Ascii.eqb c "E" then
        let (sign, s'') :=
          match s' with
          | g :: t => if Ascii.eqb g "+" || Ascii.eqb g "-"
                      then ([g], t) else ([], s')
          | [] => ([], [])
          end in
        match takeDigits s'' with
        | ([], _) => None
        | (ds, rest) => Some (c :: sign ++ ds, rest)
        end
      else Some ([], s)
  | [] => Some ([], [])
  end.

(** A number literal at the head of [s]: its text and what follows. *)
Definition scanNumber (s : gostring) : option (gostring * gostring) :=
  let (neg, s0) :=
    match s with
    | c :: s' => if Ascii.eqb c "-" then ([c], s') else ([], s)
    | [] => ([], [])
    end in
  match scanInt s0 with
  | None => None
  | Some (i, s1) =>
      match scanFrac s1 with
      | None => None
      | Some (f, s2) =>
          match scanExp s2 with
          | None => None
          | Some (e, s3) => Some (neg ++ i ++ f ++ e, s3)
          end
      end
  end.

(** Arrays and objects nest at most this deep. *)
Definition maxNestingDepth : Z := 10000.

(** One JSON value at the head of [s] (no leading space), nested [depth]
    deep: the value and the input after it. *)
Fixpoint parseValue (fuel : nat) (depth : Z) (s : gostring)
  : option (value * gostring) :=
  match fuel with
  | 0 => None
  | S fuel' =>
      match s with
      | [] => None
      | c :: s' =>
          if Ascii.eqb c "{" then
            if (maxNestingDepth <? depth + 1)%Z then None
            else
              match skipSpace s' with
              | c' :: s'' =>
                  if Ascii.eqb c' "}" then Some (Object [], s'')
                  else
                    match parseMembers fuel' (depth + 1) (c' :: s'') with
                    | Some (ms, rest) => Some (Object ms, rest)
                    | None => None
                    end
              | [] => None
              end
          else if Ascii.eqb c "[" then
            if (maxNestingDepth <? depth + 1)%Z then None
            else
              match skipSpace s' with
              | c' :: s'' =>
                  if Ascii.eqb c' "]" then Some (Array [], s'')
                  else
                    match parseElements fuel' (depth + 1) (c' :: s'') with
                    | Some (vs, rest) => Some (Array vs, rest)
                    | None => None
                    end
              | [] => None
              end
          else if Ascii.eqb c quote then
            match scanString s' with
            | Some (str, rest) => Some (String str, rest)
            | None => None
            end
          else if Ascii.eqb c "-" || isDigit c then
            match scanNumber s with
            | Some (text, rest) => Some (Number text, rest)
            | None => None
            end
          else
            match strings.cutPrefix (lit "true") s with
            | Some rest => Some (Bool true, rest)
            | None =>
                match strings.cutPrefix (lit "false") s with
                | Some rest => Some (Bool false, rest)
                | None =>
                    match strings.cutPrefix (lit "null") s with
                    | Some rest => Some (Null, rest)
                    | None => None
                    end
                end
            end
      end
  end

(** The elements of an array from the first one on, up to and including
    the closing bracket. *)
with parseElements (fuel : nat) (depth : Z) (s : gostring)
  : option (list value * gostring) :=
  match fuel with
  | 0 => None
  | S fuel' =>
      match parseValue fuel' depth s with
      | None => None
      | Some (v, rest) =>
          match skipSpace rest with
          | c :: rest' =>
              if Ascii.eqb c "]" then Some ([v], rest')
              else if Ascii.eqb c "," then
                match parseElements fuel' depth (skipSpace rest') with
                | Some (vs, rest'') => Some (v :: vs, rest'')
                | None => None
                end
              else None
          | [] => None
          end
      end
  end

(** The members of an object from the first key on, up to and including
    the closing brace. *)
with parseMembers (fuel : nat) (depth : Z) (s : gostring)
  : option (list (gostring * value) * gostring) :=
  match fuel with
  | 0 => None
  | S fuel' =>
      match s with
      | q :: s' =>
          if Ascii.eqb q quote then
            match scanString s' with
            | None => None
            | Some (key, rest) =>
                match skipSpace rest with
                | c :: rest' =>
                    if Ascii.eqb c ":" then
                      match parseValue fuel' depth (skipSpace rest') with
                      | None => None
                      | Some (v, rest1) =>
                          match skipSpace rest1 with
                          | d :: rest2 =>
                              if Ascii.eqb d "}" then
                                Some ([(key, v)], rest2)
                              else if Ascii.eqb d "," then
                                match parseMembers fuel' depth
                                        (skipSpace rest2) with
                                | Some (ms, rest3) =>
                                    Some ((key, v) :: ms, rest3)
                                | None => None
                                end
                              else None
                          | [] => None
                          end
                      end
                    else None
                | [] => None
                end
            end
          else None
      | [] => None
      end
  end.

(** [checkValid] and the scan of the decoder in one: the value the
    input denotes when it is one well-formed JSON value with white space
    around it, [None] when it is not (a [*json.SyntaxError]).  Every
    second step of the recursion consumes a byte, which bounds the fuel. *)
Definition parse (data : gostring) : option value :=
  match parseValue (2 * length data + 2) 0 (skipSpace data) with
  | Some (v, rest) =>
      match skipSpace rest with
      | [] => Some v
      | _ :: _ => None
      end
  | None => None
  end.

(** [bytes.EqualFold(name, key)] for an ASCII [name]: equal up to the
    case of ASCII letters, where moreover [s] matches U+017F (long s)
    and [k] matches U+212A (the Kelvin sign). *)
Fixpoint equalFold (name key : gostring) : bool :=
  match name with
  | [] => match key with [] => true | _ :: _ => false end
  | n :: name' =>
      match key with
      | [] => false
      | c :: key' =>
          if (byteZ c <? 128)%Z then
            (Ascii.eqb n c
             || ((http.isLower n || http.isUpper n)
                 && (Z.land (byteZ n) 223 =? Z.land (byteZ c) 223)%Z))
            && equalFold name' key'
          else if Ascii.eqb n "s" || Ascii.eqb n "S" then
            match key with
            | c1 :: c2 :: key'' =>
                Ascii.eqb c1 (ofZ 197) && Ascii.eqb c2 (ofZ 191)
                && equalFold name' key''
            | _ => false
            end
          else if Ascii.eqb n "k" || Ascii.eqb n "K" then
            match key with
            | c1 :: c2 :: c3 :: key'' =>
                Ascii.eqb c1 (ofZ 226) && Ascii.eqb c2 (ofZ 132)
                && Ascii.eqb c3 (ofZ 170) && equalFold name' key''
            | _ => false
            end
          else false
      end
  end.

(** [strconv.ParseInt(text, 10, 64)] on the text of a JSON number: an
    optional minus sign and digits only, within the range of [int64]. *)
Definition digitsValue (ds : gostring) : Z :=
  fold_left (fun acc c => (acc * 10 + (byteZ c - 48))%Z) ds 0%Z.

Definition ParseInt (text : gostring) : option Z :=
  let (neg, ds) :=
    match text with
    | c :: t => if Ascii.eqb c "-" then (true, t) else (false, text)
    | [] => (false, [])
    end in
  match ds with
  | [] => None
  | _ :: _ =>
      if forallb isDigit ds then
        let n := if neg then (- digitsValue ds)%Z else digitsValue ds in
        if ((-9223372036854775808 <=? n) && (n <=? 9223372036854775807))%Z
        then Some n else None
      else None
  end.

End json.

(** ** The report model and its decoding *)

Record Report := mkReport {
  DocumentURI : gostring;
  Referrer : gostring;
  BlockedURI : gostring;
  EffectiveDirective : gostring;
  ViolatedDirective : gostring;
  OriginalPolicy : gostring;
  Disposition : gostring;
  StatusCode : Z
}.

(** [Report{}]. *)
Definition zeroReport : Report := mkReport [] [] [] [] [] [] [] 0.

(** The envelope: the report under the key [csp-report]. *)
Record cspReport := mk_cspReport { cspReport_Report : Report }.

Inductive ReportField :=
| FDocumentURI | FReferrer | FBlockedURI | FEffectiveDirective
| FViolatedDirective | FOriginalPolicy | FDisposition | FStatusCode.

(** The [json] tag of each field. *)
Definition fieldName (f : ReportField) : gostring :=
  match f with
  | FDocumentURI => lit "document-uri"
  | FReferrer => lit "referrer"
  | FBlockedURI => lit "blocked-uri"
  | FEffectiveDirective => lit "effective-directive"
  | FViolatedDirective => lit "violated-directive"
  | FOriginalPolicy => lit "original-policy"
  | FDisposition => lit "disposition"
  | FStatusCode => lit "status"
  end.

Definition reportFields : list ReportField :=
  [FDocumentURI; FReferrer; FBlockedURI; FEffectiveDirective;
   FViolatedDirective; FOriginalPolicy; FDisposition; FStatusCode].

(** The field an object key decodes into: the one with that very name,
    or else the one whose name matches up to case. *)
Definition findField (key : gostring) : option ReportField :=
  match find (fun f => strings.eqb (fieldName f) key) reportFields with
  | Some f => Some f
  | None => find (fun f => json.equalFold (fieldName f) key) reportFields
  end.

(** A JSON value stored into a [string]: [null] leaves it as it is; a
    value that is no string is a type error ([true]) and leaves it too. *)
Definition storeString (v : json.value) (old : gostring) : gostring * bool :=
  match v with
  | json.Null => (old, false)
  | json.String s => (s, false)
  | _ => (old, true)
  end.

(** A JSON value stored into an [int] (64 bits wide). *)
Definition storeInt (v : json.value) (old : Z) : Z * bool :=
  match v with
  | json.Null => (old, false)
  | json.Number text =>
      match json.ParseInt text with
      | Some n => (n, false)
      | None => (old, true)
      end
  | _ => (old, true)
  end.

Definition storeField (f : ReportField) (v : json.value) (r : Report)
  : Report * bool :=
  match f with
  | FDocumentURI =>
      let (x, bad) := storeString v (DocumentURI r) in
      (mkReport x (Referrer r) (BlockedURI r) (EffectiveDirective r)
         (ViolatedDirective r) (OriginalPolicy r) (Disposition r)
         (StatusCode r), bad)
  | FReferrer =>
      let (x, bad) := storeString v (Referrer r) in
      (mkReport (DocumentURI r) x (BlockedURI r) (EffectiveDirective r)
         (ViolatedDirective r) (OriginalPolicy r) (Disposition r)
         (StatusCode r), bad)
  | FBlockedURI =>
      let (x, bad) := storeString v (BlockedURI r) in
      (mkReport (DocumentURI r) (Referrer r) x (EffectiveDirective r)
         (ViolatedDirective r) (OriginalPolicy r) (Disposition r)
         (StatusCode r), bad)
  | FEffectiveDirective =>
      let (x, bad) := storeString v (EffectiveDirective r) in
      (mkReport (DocumentURI r) (Referrer r) (BlockedURI r) x
         (ViolatedDirective r) (OriginalPolicy r) (Disposition r)
         (StatusCode r), bad)
  | FViolatedDirective =>
      let (x, bad) := storeString v (ViolatedDirective r) in
      (mkReport (DocumentURI r) (Referrer r) (BlockedURI r)
         (EffectiveDirective r) x (OriginalPolicy r) (Disposition r)
         (StatusCode r), bad)
  | FOriginalPolicy =>
      let (x, bad) := storeString v (OriginalPolicy r) in
      (mkReport (DocumentURI r) (Referrer r) (BlockedURI r)
         (EffectiveDirective r) (ViolatedDirective r) x (Disposition r)
         (StatusCode r), bad)
  | FDisposition =>
      let (x, bad) := storeString v (Disposition r) in
      (mkReport (DocumentURI r) (Referrer r) (BlockedURI r)
         (EffectiveDirective r) (ViolatedDirective r) (OriginalPolicy r) x
         (StatusCode r), bad)
  | FStatusCode =>
      let (x, bad) := storeInt v (StatusCode r) in
      (mkReport (DocumentURI r) (Referrer r) (BlockedURI r)
         (EffectiveDirective r) (ViolatedDirective r) (OriginalPolicy r)
         (Disposition r) x, bad)
  end.

(** The members of an object decoded into a [Report], in their order: a
    key that names no field is skipped; a type error does not stop the
    decoding, it is reported at the end. *)
Fixpoint decodeReportMembers (ms : list (gostring * json.value)) (r : Report)
  : Report * bool :=
  match ms with
  | [] => (r, false)
  | (key, v) :: ms' =>
      match findField key with
      | Some f =>
          let (r1, bad1) := storeField f v r in
          let (r2, bad2) := decodeReportMembers ms' r1 in
          (r2, bad1 || bad2)
      | None => decodeReportMembers ms' r
      end
  end.

(** A JSON value decoded into a [Report]: [null] changes nothing, an
    object sets the fields it names, anything else is a type error. *)
Definition decodeReport (v : json.value) (r : Report) : Report * bool :=
  match v with
  | json.Null => (r, false)
  | json.Object ms => decodeReportMembers ms r
  | _ => (r, true)
  end.

(** The key of the one field of the envelope. *)
Definition cspReportKey : gostring := lit "csp-report".

Definition isEnvelopeKey (key : gostring) : bool :=
  strings.eqb cspReportKey key || json.equalFold cspReportKey key.

Fixpoint decodeEnvelopeMembers (ms : list (gostring * json.value))
  (rep : cspReport) : cspReport * bool :=
  match ms with
  | [] => (rep, false)
  | (key, v) :: ms' =>
      if isEnvelopeKey key then
        let (r1, bad1) := decodeReport v (cspReport_Report rep) in
        let (rep2, bad2) := decodeEnvelopeMembers ms' (mk_cspReport r1) in
        (rep2, bad1 || bad2)
      else decodeEnvelopeMembers ms' rep
  end.

Definition decodeEnvelope (v : json.value) (rep : cspReport)
  : cspReport * bool :=
  match v with
  | json.Null => (rep, false)
  | json.Object ms => decodeEnvelopeMembers ms rep
  | _ => (rep, true)
  end.

(** [json.Unmarshal(data, &rep)] for [rep] of type [cspReport]: the value
    of [rep] after the call and the error returned. *)
Definition json_Unmarshal (data : gostring) (rep : cspReport)
  : cspReport * option error :=
  match json.parse data with
  | None => (rep, Some (jsonError json_errors.SyntaxError))
  | Some v =>
      let (rep', bad) := decodeEnvelope v rep in
      (rep', if bad then Some (jsonError json_errors.UnmarshalTypeError)
             else None)
  end.

(** ** The report endpoint *)

(** The two hooks, [ReportHandler] and [ErrorHandler], as the values of
    their one method.  A sink answers with the error it returns; an error
    hook acts on the response writer ([None] when it panics). *)
Record ReportHandler := mkReportHandler {
  ReportHandler_Report : Report -> option error
}.

Record ErrorHandler := mkErrorHandler {
  ErrorHandler_Error :
    http.ResponseWriter -> http.Request -> Z -> error
    -> option http.ResponseWriter
}.

(** An argument of [RouteHandler]: what the two type assertions on it
    give. *)
Record Opt := mkOpt {
  asReportHandler : option ReportHandler;
  asErrorHandler : option ErrorHandler
}.

(** What the handler asks of its collaborators, in order. *)
Inductive Call :=
| CallReadAll                          (* ioutil.ReadAll(r.Body) *)
| CallReport (r : Report)              (* reportHandler.Report(r) *)
| CallError (status : Z) (err : error) (* errorHandler.Error(w, r, ...) *)
| CallClose.                           (* the deferred r.Body.Close() *)

(** A request being served: the calls made so far and the response
    writer ([None] once a call on it has panicked). *)
Record Served := mkServed {
  calls : list Call;
  response : option http.ResponseWriter
}.

(** The steps of a handler: each acts on the request being served and
    either goes on with a value or ends the handler ([None]: a [return], or a
    panic). *)
Definition Step (A : Type) : Type := Served -> option A * Served.

Definition ret {A : Type} (a : A) : Step A := fun s => (Some a, s).

Definition bind {A B : Type} (m : Step A) (k : A -> Step B) : Step B :=
  fun s =>
    match m s with
    | (Some a, s') => k a s'
    | (None, s') => (None, s')
    end.

(** The statement [return]: nothing after it is run. *)
Definition return_ {A : Type} : Step A := fun s => (None, s).

(** A call is recorded. *)
Definition call (c : Call) : Step unit :=
  fun s => (Some tt, mkServed (calls s ++ [c]) (response s)).

(** An action on the response writer; when it panics the handler ends. *)
Definition onWriter
  (f : http.ResponseWriter -> option http.ResponseWriter) : Step unit :=
  fun s =>
    match response s with
    | Some w =>
        match f w with
        | Some w' => (Some tt, mkServed (calls s) (Some w'))
        | None => (None, mkServed (calls s) None)
        end
    | None => (None, s)
    end.

(** [defer]: the call [c] is made when the rest [m] of the function has
    ended, however it ended. *)
Definition defer {A : Type} (c : Call) (m : Step A) : Step A :=
  fun s =>
    let (a, s') := m s in
    (a, mkServed (calls s' ++ [c]) (response s')).

Declare Scope step_scope.
Delimit Scope step_scope with step.
Notation "x <- m ;; k" := (bind m (fun x => k))
  (at level 61, m at next level, right associativity) : step_scope.
Notation "m ;; k" := (bind m (fun _ => k))
  (at level 61, right associativity) : step_scope.

(** [ioutil.ReadAll(r.Body)]: the bytes read and the error. *)
Definition ReadAll (r : http.Request) : Step (gostring * option error) :=
  (call CallReadAll ;;
   ret (match http.ReqBody r with
        | http.BodyBytes data => (data, None)
        | http.BodyError err => ([], Some err)
        end))%step.

(** [reportHandler.Report(rep)]. *)
Definition Report_ (reportHandler : ReportHandler) (rep : Report)
  : Step (option error) :=
  (call (CallReport rep) ;;
   ret (ReportHandler_Report reportHandler rep))%step.

(** [errorHandler.Error(w, r, status, err)]. *)
Definition Error_ (errorHandler : ErrorHandler) (r : http.Request)
  (status : Z) (err : error) : Step unit :=
  (call (CallError status err) ;;
   onWriter (fun w => ErrorHandler_Error errorHandler w r status err))%step.

(** [w.WriteHeader(code)]. *)
Definition WriteHeader (code : Z) : Step unit :=
  onWriter (fun w => http.WriteHeader w code).

(** [defaultLogReporter.Report]: logs the report. *)
Definition defaultLogReporter : ReportHandler :=
  mkReportHandler (fun _ => None).

(** The sink of the tests, which keeps the report it is given. *)
Definition MockReporter : ReportHandler :=
  mkReportHandler (fun _ => None).

Section Messages.

(** The text [Error()] gives for an error of [encoding/json]; it is not
    modelled, every result below holds whatever it is. *)
Variable jsonErrorText : json_errors.t -> gostring.

(** [err.Error()]. *)
Definition Error (err : error) : gostring :=
  match err with
  | errorString msg => msg
  | jsonError e => jsonErrorText e
  end.

(** [defaultErrorHandler.Error]: logs the error, writes its text, then
    sets the status. *)
Definition defaultErrorHandler_Error (w : http.ResponseWriter)
  (r : http.Request) (status : Z) (err : error)
  : option http.ResponseWriter :=
  let w := http.Write w (Error err) in
  http.WriteHeader w status.

Definition defaultErrorHandler : ErrorHandler :=
  mkErrorHandler defaultErrorHandler_Error.

(** The loop over the options: a later option of a kind replaces an
    earlier one. *)
Definition chooseReportHandler (opts : list Opt) : ReportHandler :=
  fold_left
    (fun cur opt =>
       match asReportHandler opt with Some r => r | None => cur end)
    opts defaultLogReporter.

Definition chooseErrorHandler (opts : list Opt) : ErrorHandler :=
  fold_left
    (fun cur opt =>
       match asErrorHandler opt with Some e => e | None => cur end)
    opts defaultErrorHandler.

(** The body of the function [RouteHandler(opts...)] returns. *)
Definition routeHandler (opts : list Opt) (r : http.Request) : Step unit :=
  let reportHandler := chooseReportHandler opts in
  let errorHandler := chooseErrorHandler opts in
  let contentType := http.Get (http.ReqHeader r) (lit "Content-Type") in
  (if negb (strings.eqb contentType ReportContentType) then
     Error_ errorHandler r http.StatusUnsupportedMediaType
       (errorString
          (lit "Unsupported content type (expected " ++ ReportContentType
             ++ lit ")")) ;;
     return_
   else
     read <- ReadAll r ;;
     defer CallClose
       (match snd read with
        | Some err =>
            Error_ errorHandler r http.StatusBadRequest err ;;
            return_
        | None =>
            let (rep, err) :=
              json_Unmarshal (fst read) (mk_cspReport zeroReport) in
            match err with
            | Some err =>
                Error_ errorHandler r http.StatusBadRequest err ;;
                return_
            | None =>
                err <- Report_ reportHandler (cspReport_Report rep) ;;
                match err with
                | Some err =>
                    Error_ errorHandler r http.StatusInternalServerError
                      err ;;
                    return_
                | None => WriteHeader http.StatusOK
                end
            end
        end))%step.

(** The handler [RouteHandler(opts...)] returns, serving the request [r]
    on the response writer [w]: the calls it makes and the response writer
    it leaves. *)
Definition RouteHandler (opts : list Opt) (w : http.ResponseWriter)
  (r : http.Request) : Served :=
  snd (routeHandler opts r (mkServed [] (Some w))).

End Messages.

(** ** The directive table

    The twelve source-list directives and the scalar one, with their wire
    names and their fields; [MarshalText] and [UnmarshalText] are stated
    over this table below. *)

Inductive Directive :=
| DDefaultSrc | DChildSrc | DConnectSrc | DFontSrc | DFrameSrc | DImgSrc
| DManifestSrc | DMediaSrc | DObjectSrc | DScriptSrc | DStyleSrc | DWorkerSrc.

(** A slot of the policy: a source list, or the scalar [report-to]. *)
Inductive Slot :=
| SourcesOf (d : Directive)
| SlotReportTo.

Definition directiveName (d : Directive) : gostring :=
  match d with
  | DDefaultSrc => defaultSrc
  | DChildSrc => childSrc
  | DConnectSrc => connectSrc
  | DFontSrc => fontSrc
  | DFrameSrc => frameSrc
  | DImgSrc => imgSrc
  | DManifestSrc => manifestSrc
  | DMediaSrc => mediaSrc
  | DObjectSrc => objectSrc
  | DScriptSrc => scriptSrc
  | DStyleSrc => styleSrc
  | DWorkerSrc => workerSrc
  end.

Definition slotName (s : Slot) : gostring :=
  match s with
  | SourcesOf d => directiveName d
  | SlotReportTo => reportTo
  end.

Definition sources (d : Directive) (c : CSP) : SourceList :=
  match d with
  | DDefaultSrc => DefaultSrc c
  | DChildSrc => ChildSrc c
  | DConnectSrc => ConnectSrc c
  | DFontSrc => FontSrc c
  | DFrameSrc => FrameSrc c
  | DImgSrc => ImgSrc c
  | DManifestSrc => ManifestSrc c
  | DMediaSrc => MediaSrc c
  | DObjectSrc => ObjectSrc c
  | DScriptSrc => ScriptSrc c
  | DStyleSrc => StyleSrc c
  | DWorkerSrc => WorkerSrc c
  end.

Definition setSources (d : Directive) (v : SourceList) (c : CSP) : CSP :=
  match d with
  | DDefaultSrc => set_DefaultSrc v c
  | DChildSrc => set_ChildSrc v c
  | DConnectSrc => set_ConnectSrc v c
  | DFontSrc => set_FontSrc v c
  | DFrameSrc => set_FrameSrc v c
  | DImgSrc => set_ImgSrc v c
  | DManifestSrc => set_ManifestSrc v c
  | DMediaSrc => set_MediaSrc v c
  | DObjectSrc => set_ObjectSrc v c
  | DScriptSrc => set_ScriptSrc v c
  | DStyleSrc => set_StyleSrc v c
  | DWorkerSrc => set_WorkerSrc v c
  end.

(** The order in which [MarshalText] visits the source lists. *)
Definition marshalOrder : list Directive :=
  [DDefaultSrc; DChildSrc; DConnectSrc; DFontSrc; DFrameSrc; DImgSrc;
   DManifestSrc; DMediaSrc; DObjectSrc; DScriptSrc; DStyleSrc; DWorkerSrc].

Definition allSlots : list Slot :=
  map SourcesOf marshalOrder ++ [SlotReportTo].

Definition Directive_eqb (a b : Directive) : bool :=
  match a, b with
  | DDefaultSrc, DDefaultSrc | DChildSrc, DChildSrc
  | DConnectSrc, DConnectSrc | DFontSrc, DFontSrc | DFrameSrc, DFrameSrc
  | DImgSrc, DImgSrc | DManifestSrc, DManifestSrc | DMediaSrc, DMediaSrc
  | DObjectSrc, DObjectSrc | DScriptSrc, DScriptSrc | DStyleSrc, DStyleSrc
  | DWorkerSrc, DWorkerSrc => true
  | _, _ => false
  end.

Definition Slot_eqb (a b : Slot) : bool :=
  match a, b with
  | SourcesOf x, SourcesOf y => Directive_eqb x y
  | SlotReportTo, SlotReportTo => true
  | _, _ => false
  end.

(** A slot is present when its list, or its string, is not empty. *)
Definition present (s : Slot) (c : CSP) : bool :=
  match s with
  | SourcesOf d => negb (length (sources d c) =? 0)
  | SlotReportTo => negb (strings.eqb (ReportTo c) [])
  end.

(** The text a present slot is encoded as, after its name. *)
Definition slotText (s : Slot) (c : CSP) : gostring :=
  match s with
  | SourcesOf d => strings.Join (sources d c) (lit " ")
  | SlotReportTo => ReportTo c
  end.

(** The entry of a slot in the encoded text: none when it is absent. *)
Definition entry (c : CSP) (s : Slot) : list gostring :=
  if present s c then [Sprintf_s_s (slotName s) (slotText s c)] else [].

Definition entries (c : CSP) : list gostring := flat_map (entry c) allSlots.

(** The slot a directive name stands for. *)
Definition slotOfName (k : gostring) : option Slot :=
  find (fun s => strings.eqb k (slotName s)) allSlots.

(** The value a slot takes from the text [v]. *)
Definition assign (s : Slot) (v : gostring) (c : CSP) : CSP :=
  match s with
  | SourcesOf d => setSources d (strings.Split v " ") c
  | SlotReportTo => set_ReportTo v c
  end.

(** [s] cut at its first [sep]: what is before and what is after, when
    there is one. *)
Fixpoint cut (s : gostring) (sep : ascii) : option (gostring * gostring) :=
  match s with
  | [] => None
  | x :: s' =>
      if Ascii.eqb x sep then Some ([], s')
      else
        match cut s' sep with
        | Some (a, rest) => Some (x :: a, rest)
        | None => None
        end
  end.

(** The directive name and the value of a piece of the text, as the
    decoder's contract words it: the trimmed piece is cut at its first space,
    and both halves are trimmed; a piece without a space has neither. *)
Definition pieceNameValue (p : gostring) : option (gostring * gostring) :=
  match cut (strings.TrimSpace p) " " with
  | Some (name, rest) =>
      Some (strings.TrimSpace name, strings.TrimSpace rest)
  | None => None
  end.

(** The slot a piece of the text names, when it names one and has a
    value. *)
Definition pieceSlot (p : gostring) : option Slot :=
  match pieceNameValue p with
  | Some (k, _) => slotOfName k
  | None => None
  end.

(** The text has a piece that names the slot [s]. *)
Definition names (text : gostring) (s : Slot) : bool :=
  existsb
    (fun p => match pieceSlot p with
              | Some s' => Slot_eqb s s'
              | None => false
              end)
    (strings.Split text ";").

(** The slot [s] holds the same value in [c] and in [c']. *)
Definition sameSlot (s : Slot) (c c' : CSP) : Prop :=
  match s with
  | SourcesOf d => sources d c' = sources d c
  | SlotReportTo => ReportTo c' = ReportTo c
  end.

(** [strings.Contains(s, substr)]. *)
Fixpoint Contains (s substr : gostring) : bool :=
  match strings.cutPrefix substr s with
  | Some _ => true
  | None =>
      match s with
      | [] => false
      | _ :: s' => Contains s' substr
      end
  end.

(** A token as the round-trip law words it: not empty, without a space
    and without a semicolon. *)
Definition plainToken (t : gostring) : bool :=
  negb (strings.eqb t []) && negb (existsb (Ascii.eqb " ") t)
  && negb (existsb (Ascii.eqb ";") t).

(** Every source token of the policy satisfies [ok], and so does the
    scalar unless it is empty. *)
Definition allTokens (ok : gostring -> bool) (c : CSP) : bool :=
  forallb (fun d => forallb ok (sources d c)) marshalOrder
  && (strings.eqb (ReportTo c) [] || ok (ReportTo c)).

(** No value of the policy begins or ends with white space: trimming
    leaves the joined tokens of every source list, and the scalar, as they
    are. *)
Definition trimmedValues (c : CSP) : bool :=
  forallb
    (fun s => strings.eqb (strings.TrimSpace (slotText s c)) (slotText s c))
    allSlots.

(** A policy of plain tokens whose values have no white space at their
    ends. *)
Definition cleanPolicy (c : CSP) : bool :=
  allTokens plainToken c && trimmedValues c.

(** No source token and not the scalar contains the name of an absent
    directive. *)
Definition valuesFreeOfAbsentNames (c : CSP) : bool :=
  allTokens
    (fun t =>
       forallb (fun s => present s c || negb (Contains t (slotName s)))
         allSlots) c.

(** Decoding the encoded text of [c] into a zero-valued policy. *)
Definition roundTrip (c : CSP) : CSP :=
  fst (UnmarshalText zeroCSP (fst (MarshalText c))).

(** Field-wise equality on the thirteen directive fields. *)
Definition sameDirectives (c c' : CSP) : Prop :=
  ChildSrc c' = ChildSrc c /\ ConnectSrc c' = ConnectSrc c
  /\ DefaultSrc c' = DefaultSrc c /\ FontSrc c' = FontSrc c
  /\ FrameSrc c' = FrameSrc c /\ ImgSrc c' = ImgSrc c
  /\ ManifestSrc c' = ManifestSrc c /\ MediaSrc c' = MediaSrc c
  /\ ObjectSrc c' = ObjectSrc c /\ ScriptSrc c' = ScriptSrc c
  /\ StyleSrc c' = StyleSrc c /\ WorkerSrc c' = WorkerSrc c
  /\ ReportTo c' = ReportTo c.

(** [c] occurs in no element of [tbl]. *)
Definition inNoRune (tbl : list gostring) (c : ascii) : bool :=
  forallb (fun e => negb (existsb (Ascii.eqb c) e)) tbl.

(** [c] occurs in the elements of [tbl] at their head only. *)
Definition headOnly (tbl : list gostring) (c : ascii) : bool :=
  forallb (fun e => negb (existsb (Ascii.eqb c) (tl e))) tbl.

(** One piece of the text decoded, as the decoder's contract words it: a
    piece that has a name and a value, and whose name is a directive's, gives
    its value to that directive's slot; any other piece is ignored. *)
Definition decodePiece (c : CSP) (p : gostring) : CSP :=
  match pieceNameValue p with
  | Some (k, v) =>
      match slotOfName k with
      | Some s => assign s v c
      | None => c
      end
  | None => c
  end.

(** The content of a slot, the scalar as a list of one string. *)
Definition slotGet (s : Slot) (c : CSP) : list gostring :=
  match s with
  | SourcesOf d => sources d c
  | SlotReportTo => [ReportTo c]
  end.

(** [v] is not empty and has no white space at either end. *)
Definition noSpaceAtEnds (v : gostring) : Prop :=
  v <> []
  /\ strings.dropOne strings.spaceRunes v = None
  /\ strings.dropOne strings.revRunes (rev v) = None.

(** What decoding the entry of a present slot comes to: the slot takes
    the text of the entry. *)
Definition copySlot (P c : CSP) (s : Slot) : CSP :=
  if present s P then assign s (slotText s P) c else c.

(** A policy whose one source token, the letter [a] followed by a tab,
    is not empty and has no space and no semicolon, and whose scalar is
    plain too. *)
Definition tabEnded : CSP :=
  set_ReportTo (lit "endpoint")
    (set_DefaultSrc (NewSourceList [["a"; strings.b 9]]) zeroCSP).

(** A policy with several directives, one of two tokens, and a scalar. *)
Definition examplePolicy : CSP :=
  set_ReportTo (lit "csp-endpoint")
    (set_ScriptSrc (NewSourceList [lit "userscripts.example.com"])
       (set_MediaSrc (NewSourceList [lit "media1.com"; lit "media2.com"])
          (set_ImgSrc (NewSourceList [SourceAny])
             (set_DefaultSrc (NewSourceList [SourceSelf]) zeroCSP)))).

(** A policy whose one source token is the name of another directive. *)
Definition nameAsToken : CSP :=
  set_DefaultSrc (NewSourceList [imgSrc]) zeroCSP.

(** No slot of the policy is present. *)
Definition noSlotPresent (c : CSP) : bool :=
  forallb (fun s => negb (present s c)) allSlots.

(** A policy in the form decoding gives: the value of every present slot
    is not empty, has no white space at its ends and no semicolon, and
    decodes to the content of the slot. *)
Definition canonical (P : CSP) : Prop :=
  forall s, present s P = true ->
    noSpaceAtEnds (slotText s P) /\ ~ In ";" (slotText s P)
    /\ forall c, slotGet s (assign s (slotText s P) c) = slotGet s P.

(** The content a slot takes from the value [v]. *)
Definition decoded (s : Slot) (v : gostring) : list gostring :=
  match s with
  | SourcesOf _ => strings.Split v " "
  | SlotReportTo => [v]
  end.

(** A source list that is not empty and whose tokens have no space. *)
Definition spaceFree (l : SourceList) : bool :=
  negb (length l =? 0)
  && forallb (fun t => negb (existsb (Ascii.eqb " ") t)) l.


(** The kinds of calls of the handler, and how many calls of a kind a
    request made. *)
Definition isCallReadAll (c : Call) : bool :=
  match c with CallReadAll => true | _ => false end.
Definition isCallReport (c : Call) : bool :=
  match c with CallReport _ => true | _ => false end.
Definition isCallError (c : Call) : bool :=
  match c with CallError _ _ => true | _ => false end.
Definition isCallClose (c : Call) : bool :=
  match c with CallClose => true | _ => false end.

Definition countCalls (kind : Call -> bool) (cs : list Call) : nat :=
  length (filter kind cs).

(** The sinks and the error hooks among the options, in their order. *)
Definition suppliedReportHandlers (opts : list Opt) : list ReportHandler :=
  flat_map
    (fun opt => match asReportHandler opt with Some r => [r] | None => [] end)
    opts.

Definition suppliedErrorHandlers (opts : list Opt) : list ErrorHandler :=
  flat_map
    (fun opt => match asErrorHandler opt with Some e => [e] | None => [] end)
    opts.

(** No piece of the text names a slot. *)
Definition namesNothing (text : gostring) : bool :=
  forallb (fun s => negb (names text s)) allSlots.

(** ** Requests and reports used below *)

(** The text [s] with a double quote in the place of every backquote. *)
Definition jsonText (s : String.string) : gostring :=
  map (fun c => if Ascii.eqb c "`" then json.quote else c) (lit s).
Arguments jsonText s%_string.

(** The example envelope. *)
Definition exampleBody : gostring :=
  jsonText "{`csp-report`:{"
  ++ jsonText "`document-uri`:`http://example.com/signup.html`,"
  ++ jsonText "`blocked-uri`:`http://example.com/css/style.css`,"
  ++ jsonText "`violated-directive`:`style-src cdn.example.com`,"
  ++ jsonText "`original-policy`:`default-src 'none'; style-src cdn.example.com`,"
  ++ jsonText "`disposition`:`report`}}".

Definition exampleReport : Report :=
  mkReport
    (lit "http://example.com/signup.html")
    []
    (lit "http://example.com/css/style.css")
    []
    (lit "style-src cdn.example.com")
    (lit "default-src 'none'; style-src cdn.example.com")
    (lit "report")
    0.

(** A request that carries [body] under the content type of reports. *)
Definition reportRequest (body : http.Body) : http.Request :=
  http.mkRequest [(lit "Content-Type", [ReportContentType])] body.

(** A request of another content type. *)
Definition plainRequest : http.Request :=
  http.mkRequest [(lit "Content-Type", [lit "application/json"])]
    (http.BodyBytes exampleBody).

(** A sink that fails. *)
Definition failingReporter : ReportHandler :=
  mkReportHandler (fun _ => Some (errorString (lit "sink down"))).

(** The error the handler makes for a wrong content type. *)
Definition errUnsupported : error :=
  errorString
    (lit "Unsupported content type (expected " ++ ReportContentType
       ++ lit ")").

(** A JSON value that is [null], or an object none of whose keys is the
    key of the envelope, be it up to case. *)
Definition lacksEnvelopeKey (v : json.value) : bool :=
  match v with
  | json.Null => true
  | json.Object ms => forallb (fun kv => negb (isEnvelopeKey (fst kv))) ms
  | _ => false
  end.

(** * Properties *)

(** ** Strings *)

Lemma eqb_eq (a b : gostring) : strings.eqb a b = true <-> a = b.
Proof.
  revert b; induction a as [|x a IH]; intros [|y b]; simpl;
    try (split; [discriminate | discriminate]); try tauto.
  rewrite andb_true_iff, Ascii.eqb_eq, IH.
  split; [intros [-> ->]; reflexivity | intros H; inversion H; auto].
Qed.

Lemma eqb_refl (a : gostring) : strings.eqb a a = true.
Proof. apply eqb_eq; reflexivity. Qed.

Lemma eqb_neq (a b : gostring) : strings.eqb a b = false <-> a <> b.
Proof.
  rewrite <- eqb_eq. destruct (strings.eqb a b); split; congruence.
Qed.

Lemma existsb_eqb_In (c : ascii) (s : gostring) :
  existsb (Ascii.eqb c) s = false <-> ~ In c s.
Proof.
  induction s as [|x s IH]; simpl; [tauto|].
  rewrite orb_false_iff, IH, Ascii.eqb_neq. intuition congruence.
Qed.

Lemma cutPrefix_app (p s r : gostring) :
  strings.cutPrefix p s = Some r <-> s = p ++ r.
Proof.
  revert s; induction p as [|a p IH]; intros s; simpl.
  - split; [intros [= ->] | intros ->]; reflexivity.
  - destruct s as [|c s]; [split; discriminate|].
    destruct (Ascii.eqb a c) eqn:E.
    + apply Ascii.eqb_eq in E; subst c. rewrite IH.
      split; [intros -> | intros [= ->]]; reflexivity.
    + apply Ascii.eqb_neq in E. split; [discriminate | intros [= <- _]].
      congruence.
Qed.

Lemma Contains_infix (s n : gostring) :
  Contains s n = true <-> exists a c, s = a ++ n ++ c.
Proof.
  induction s as [|x s IH]; simpl.
  - destruct (strings.cutPrefix n []) as [r|] eqn:E.
    + apply cutPrefix_app in E. split; [|reflexivity].
      intros _. exists [], r. exact E.
    + split; [discriminate|]. intros (a & c & H).
      destruct a; [|discriminate]. simpl in H.
      assert (E' : strings.cutPrefix n [] = Some c)
        by (apply cutPrefix_app; exact H).
      congruence.
  - destruct (strings.cutPrefix n (x :: s)) as [r|] eqn:E.
    + apply cutPrefix_app in E. split; [|reflexivity].
      intros _. exists [], r. exact E.
    + rewrite IH. split.
      * intros (a & c & ->). exists (x :: a), c. reflexivity.
      * intros (a & c & H). destruct a as [|y a]; simpl in H.
        -- assert (E' : strings.cutPrefix n (x :: s) = Some c)
             by (apply cutPrefix_app; exact H).
           congruence.
        -- injection H as _ ->. exists a, c. reflexivity.
Qed.

(** An occurrence of [n] in [s1 ++ c :: s2], where [c] is not in [n], lies
    in [s1] or in [s2]. *)
Lemma infix_sep (s1 s2 n a z : gostring) (c : ascii) :
  s1 ++ c :: s2 = a ++ n ++ z -> ~ In c n ->
  (exists a' z', s1 = a' ++ n ++ z') \/ (exists a' z', s2 = a' ++ n ++ z').
Proof.
  intros H Hc.
  apply app_eq_app in H. destruct H as (l & [[-> H] | [-> H]]).
  - symmetry in H. apply app_eq_app in H.
    destruct H as (m & [[-> H] | [-> H]]).
    + left. exists a, m. reflexivity.
    + destruct m as [|x m].
      * left. exists a, []. rewrite !app_nil_r. reflexivity.
      * injection H as <- _. exfalso. apply Hc.
        apply in_or_app. right. left. reflexivity.
  - destruct l as [|x l]; simpl in H.
    + destruct n as [|y n].
      * left. exists [], s1. reflexivity.
      * injection H as -> _. exfalso. apply Hc. left. reflexivity.
    + injection H as _ ->. right. exists l, z. reflexivity.
Qed.

Lemma Contains_sep (s1 s2 n : gostring) (c : ascii) :
  ~ In c n -> Contains (s1 ++ c :: s2) n = true ->
  Contains s1 n = true \/ Contains s2 n = true.
Proof.
  intros Hc H. apply Contains_infix in H. destruct H as (a & z & H).
  destruct (infix_sep _ _ _ _ _ _ H Hc) as [(a' & z' & E) | (a' & z' & E)];
    [left | right]; apply Contains_infix; eauto.
Qed.

Lemma Split_no_sep (s : gostring) (c : ascii) :
  ~ In c s -> strings.Split s c = [s].
Proof.
  induction s as [|x s IH]; simpl; intros H; [reflexivity|].
  destruct (Ascii.eqb x c) eqn:E.
  - apply Ascii.eqb_eq in E. exfalso. apply H. left. exact E.
  - rewrite IH by tauto. reflexivity.
Qed.

Lemma Split_app_sep (a r : gostring) (c : ascii) :
  ~ In c a -> strings.Split (a ++ c :: r) c = a :: strings.Split r c.
Proof.
  induction a as [|x a IH]; simpl; intros H.
  - rewrite Ascii.eqb_refl. reflexivity.
  - destruct (Ascii.eqb x c) eqn:E.
    + apply Ascii.eqb_eq in E. exfalso. apply H. left. exact E.
    + rewrite IH by tauto. reflexivity.
Qed.

(** Splitting undoes joining, for pieces without the separator. *)
Lemma Split_Join (l : list gostring) (c : ascii) :
  l <> [] -> Forall (fun t => ~ In c t) l ->
  strings.Split (strings.Join l [c]) c = l.
Proof.
  induction l as [|t l IH]; [congruence|]. intros _ H.
  inversion H as [|? ? Ht Hl]; subst.
  destruct l as [|u l].
  - simpl. apply Split_no_sep; exact Ht.
  - change (strings.Join (t :: u :: l) [c])
      with (t ++ c :: strings.Join (u :: l) [c]).
    rewrite Split_app_sep by exact Ht. rewrite IH; [reflexivity | discriminate | exact Hl].
Qed.

Lemma SplitN_cut (s : gostring) (c : ascii) :
  strings.SplitN s c 2 =
  match cut s c with Some (a, r) => [a; r] | None => [s] end.
Proof.
  induction s as [|x s IH]; [reflexivity|].
  simpl. destruct (Ascii.eqb x c).
  - destruct s; reflexivity.
  - simpl in IH. rewrite IH. destruct (cut s c) as [[a r]|]; reflexivity.
Qed.

Lemma cut_app_sep (a r : gostring) (c : ascii) :
  ~ In c a -> cut (a ++ c :: r) c = Some (a, r).
Proof.
  induction a as [|x a IH]; simpl; intros H.
  - rewrite Ascii.eqb_refl. reflexivity.
  - destruct (Ascii.eqb x c) eqn:E.
    + apply Ascii.eqb_eq in E. exfalso. apply H. left. exact E.
    + rewrite IH by tauto. reflexivity.
Qed.

(** *** Trimming *)

Section Trim.

Variable tbl : list gostring.

Lemma dropOne_Some (s r : gostring) :
  strings.dropOne tbl s = Some r -> exists e, In e tbl /\ s = e ++ r.
Proof.
  induction tbl as [|e t IH]; simpl; [discriminate|].
  destruct (strings.cutPrefix e s) as [r'|] eqn:E.
  - intros [= ->]. apply cutPrefix_app in E. exists e; auto.
  - intros H. destruct (IH H) as (e' & He & Hs). exists e'; auto.
Qed.

Lemma dropOne_None (s : gostring) :
  strings.dropOne tbl s = None ->
  forall e r, In e tbl -> s <> e ++ r.
Proof.
  induction tbl as [|e t IH]; simpl; [intros _ e r []|].
  destruct (strings.cutPrefix e s) as [r'|] eqn:E; [discriminate|].
  intros H e' r [<- | He] Hs.
  - apply cutPrefix_app in Hs. congruence.
  - exact (IH H e' r He Hs).
Qed.

Lemma dropOne_None_intro (s : gostring) :
  (forall e r, In e tbl -> s <> e ++ r) -> strings.dropOne tbl s = None.
Proof.
  intros H. destruct (strings.dropOne tbl s) as [r|] eqn:E; [|reflexivity].
  destruct (dropOne_Some _ _ E) as (e & He & Hs).
  exfalso. exact (H e r He Hs).
Qed.

Lemma trimFuel_fixed (n : nat) (s : gostring) :
  strings.dropOne tbl s = None -> strings.trimFuel tbl n s = s.
Proof. intros H. destruct n; simpl; [|rewrite H]; reflexivity. Qed.

Lemma trimFuel_suffix (n : nat) (s : gostring) :
  exists p, s = p ++ strings.trimFuel tbl n s.
Proof.
  revert s; induction n as [|n IH]; intros s; simpl.
  - exists []; reflexivity.
  - destruct (strings.dropOne tbl s) as [r|] eqn:E.
    + destruct (dropOne_Some _ _ E) as (e & _ & ->).
      destruct (IH r) as (p & Hp).
      exists (e ++ p). rewrite <- app_assoc, <- Hp. reflexivity.
    + exists []; reflexivity.
Qed.

Lemma trimFuel_length (n : nat) (s : gostring) :
  length (strings.trimFuel tbl n s) <= length s.
Proof.
  destruct (trimFuel_suffix n s) as (p & Hp).
  rewrite Hp at 2. rewrite length_app. lia.
Qed.

(** When something is removed, the result is shorter. *)
Lemma trimFuel_shorter (s r : gostring) :
  ~ In [] tbl -> strings.dropOne tbl s = Some r ->
  length (strings.trimFuel tbl (length s) s) < length s.
Proof.
  intros Hne E. destruct (dropOne_Some _ _ E) as (e & He & Hs).
  destruct e as [|x e]; [tauto|].
  subst s. simpl length. simpl strings.trimFuel.
  simpl in E. rewrite E.
  pose proof (trimFuel_length (length (e ++ r)) r) as L.
  rewrite length_app in *. lia.
Qed.

(** A byte [c] that occurs in the table at the head of an element only:
    a string on which nothing is removed stays so when [c] and more
    follow. *)
Lemma dropOne_app_sep (t r : gostring) (c : ascii) :
  (forall e, In e tbl -> ~ In c (tl e)) ->
  t <> [] -> strings.dropOne tbl t = None ->
  strings.dropOne tbl (t ++ c :: r) = None.
Proof.
  intros Htl Hne Hn. apply dropOne_None_intro. intros e r' He Hs.
  apply app_eq_app in Hs. destruct Hs as (l & [[-> _] | [-> H]]).
  - exact (dropOne_None _ Hn e l He eq_refl).
  - destruct l as [|x l].
    + rewrite app_nil_r in He.
      apply (dropOne_None _ Hn t [] He). rewrite app_nil_r. reflexivity.
    + injection H as <- _. apply (Htl _ He).
      destruct t as [|y t]; [congruence|]. simpl.
      apply in_or_app. right. left. reflexivity.
Qed.

(** Trimming never goes past a byte that occurs in no element of the
    table. *)
Lemma trimFuel_stops (n : nat) (s t : gostring) (c : ascii) :
  (forall e, In e tbl -> ~ In c e) ->
  exists p s', s = p ++ s' /\
               strings.trimFuel tbl n (s ++ c :: t) = s' ++ c :: t.
Proof.
  intros Hc. revert s; induction n as [|n IH]; intros s; simpl.
  - exists [], s; auto.
  - destruct (strings.dropOne tbl (s ++ c :: t)) as [r|] eqn:E.
    + destruct (dropOne_Some _ _ E) as (e & He & Hs).
      apply app_eq_app in Hs. destruct Hs as (l & [[-> Hr] | [-> H]]).
      * subst r. destruct (IH l) as (p & s' & -> & Ht).
        exists (e ++ p), s'. rewrite <- app_assoc. auto.
      * destruct l as [|x l].
        -- simpl in H. subst r. rewrite app_nil_r in *.
           destruct (IH []) as (p & s' & Hp & Ht).
           symmetry in Hp. apply app_eq_nil in Hp. destruct Hp as [-> ->].
           exists s, []. rewrite app_nil_r. auto.
        -- injection H as <- _. exfalso. apply (Hc _ He).
           apply in_or_app. right. left. reflexivity.
    + exists [], s; auto.
Qed.

End Trim.

Lemma inNoRune_spec (tbl : list gostring) (c : ascii) :
  inNoRune tbl c = true -> forall e, In e tbl -> ~ In c e.
Proof.
  unfold inNoRune. rewrite forallb_forall. intros H e He.
  apply existsb_eqb_In. specialize (H e He).
  destruct (existsb (Ascii.eqb c) e); [discriminate | reflexivity].
Qed.

Lemma headOnly_spec (tbl : list gostring) (c : ascii) :
  headOnly tbl c = true -> forall e, In e tbl -> ~ In c (tl e).
Proof.
  unfold headOnly. rewrite forallb_forall. intros H e He.
  apply existsb_eqb_In. specialize (H e He).
  destruct (existsb (Ascii.eqb c) (tl e)); [discriminate | reflexivity].
Qed.

Lemma spaceRunes_nonempty : ~ In [] strings.spaceRunes.
Proof.
  assert (H : forallb (fun e => negb (strings.eqb e [])) strings.spaceRunes
              = true) by reflexivity.
  rewrite forallb_forall in H. intros Hin. specialize (H [] Hin).
  discriminate.
Qed.

Lemma revRunes_nonempty : ~ In [] strings.revRunes.
Proof.
  assert (H : forallb (fun e => negb (strings.eqb e [])) strings.revRunes = true)
    by reflexivity.
  rewrite forallb_forall in H. intros Hin. specialize (H [] Hin).
  discriminate.
Qed.

Lemma TrimLeftSpace_suffix (s : gostring) :
  exists p, s = p ++ strings.TrimLeftSpace s.
Proof. apply trimFuel_suffix. Qed.

Lemma TrimRightSpace_prefix (s : gostring) :
  exists q, s = strings.TrimRightSpace s ++ q.
Proof.
  unfold strings.TrimRightSpace.
  destruct (trimFuel_suffix strings.revRunes (length s) (rev s)) as (p & Hp).
  exists (rev p). rewrite <- rev_app_distr, <- Hp, rev_involutive.
  reflexivity.
Qed.

(** The trimmed string is a part of the string. *)
Lemma TrimSpace_infix (s : gostring) :
  exists p q, s = p ++ strings.TrimSpace s ++ q.
Proof.
  unfold strings.TrimSpace.
  destruct (TrimLeftSpace_suffix s) as (p & Hp).
  destruct (TrimRightSpace_prefix (strings.TrimLeftSpace s)) as (q & Hq).
  exists p, q. rewrite <- Hq. exact Hp.
Qed.

Lemma TrimLeftSpace_fixed (s : gostring) :
  strings.dropOne strings.spaceRunes s = None -> strings.TrimLeftSpace s = s.
Proof. apply trimFuel_fixed. Qed.

Lemma TrimRightSpace_fixed (s : gostring) :
  strings.dropOne strings.revRunes (rev s) = None -> strings.TrimRightSpace s = s.
Proof.
  intros H. unfold strings.TrimRightSpace.
  rewrite trimFuel_fixed by exact H. apply rev_involutive.
Qed.

Lemma TrimSpace_fixed (s : gostring) :
  strings.dropOne strings.spaceRunes s = None ->
  strings.dropOne strings.revRunes (rev s) = None ->
  strings.TrimSpace s = s.
Proof.
  intros Hl Hr. unfold strings.TrimSpace.
  rewrite TrimLeftSpace_fixed by exact Hl. apply TrimRightSpace_fixed, Hr.
Qed.

(** A string that trimming leaves as it is has no white space at either
    end. *)
Lemma TrimSpace_fixed_inv (s : gostring) :
  strings.TrimSpace s = s ->
  strings.dropOne strings.spaceRunes s = None
  /\ strings.dropOne strings.revRunes (rev s) = None.
Proof.
  intros H.
  assert (Hl : strings.dropOne strings.spaceRunes s = None).
  { destruct (strings.dropOne strings.spaceRunes s) as [r|] eqn:E;
      [|reflexivity].
    exfalso.
    pose proof (trimFuel_shorter _ _ _ spaceRunes_nonempty E) as L.
    fold (strings.TrimLeftSpace s) in L.
    destruct (TrimRightSpace_prefix (strings.TrimLeftSpace s)) as (q & Hq).
    fold (strings.TrimSpace s) in Hq. rewrite H in Hq.
    rewrite Hq in L at 1. rewrite length_app in L. lia. }
  split; [exact Hl|].
  destruct (strings.dropOne strings.revRunes (rev s)) as [r|] eqn:E; [|reflexivity].
  exfalso.
  pose proof (trimFuel_shorter _ _ _ revRunes_nonempty E) as L.
  unfold strings.TrimSpace in H. rewrite TrimLeftSpace_fixed in H by exact Hl.
  unfold strings.TrimRightSpace in H.
  rewrite !length_rev in L. apply (f_equal (@length ascii)) in H.
  rewrite length_rev in H. lia.
Qed.

(** A string that begins with a byte of no space rune keeps its head. *)
Lemma TrimLeftSpace_head (c : ascii) (s : gostring) :
  inNoRune strings.spaceRunes c = true ->
  strings.TrimLeftSpace (c :: s) = c :: s.
Proof.
  intros H. apply TrimLeftSpace_fixed, dropOne_None_intro.
  intros e r He Hs. destruct e as [|x e].
  - exact (spaceRunes_nonempty He).
  - injection Hs as -> _.
    apply (inNoRune_spec _ _ H _ He). left. reflexivity.
Qed.

(** Trimming at the end keeps everything up to a byte of no space rune. *)
Lemma TrimRightSpace_keeps (a z : gostring) (c : ascii) :
  inNoRune strings.revRunes c = true ->
  exists z', strings.TrimRightSpace (a ++ c :: z) = a ++ c :: z'.
Proof.
  intros H. unfold strings.TrimRightSpace.
  replace (rev (a ++ c :: z)) with (rev z ++ c :: rev a)
    by (rewrite rev_app_distr; simpl; rewrite <- app_assoc; reflexivity).
  destruct (trimFuel_stops strings.revRunes (length (a ++ c :: z)) (rev z) (rev a) c
              (inNoRune_spec _ _ H)) as (p & s' & _ & ->).
  exists (rev s'). rewrite rev_app_distr. simpl.
  rewrite rev_involutive, <- app_assoc. reflexivity.
Qed.

(** ** The codec over the directive table *)

Lemma appendSources_app (policies : list gostring) (name : gostring)
  (l : SourceList) :
  appendSources policies name l =
  policies ++ (if negb (length l =? 0)
               then [Sprintf_s_s name (strings.Join l (lit " "))] else []).
Proof.
  unfold appendSources. destruct (negb (length l =? 0)); simpl;
    [reflexivity | rewrite app_nil_r; reflexivity].
Qed.

(** [MarshalText] joins the entries of the present slots, in the order of
    the table, and trims the result. *)
Lemma MarshalText_entries (c : CSP) :
  MarshalText c =
  (strings.TrimSpace (strings.Join (entries c) (lit "; ")), None).
Proof.
  unfold MarshalText. rewrite !appendSources_app.
  f_equal. f_equal. f_equal.
  unfold entries, allSlots, marshalOrder, entry, present, slotText, slotName,
    sources, directiveName.
  cbn [map app flat_map].
  destruct (negb (strings.eqb (ReportTo c) []));
    rewrite <- ?app_assoc, ?app_nil_r; reflexivity.
Qed.

Lemma slotOfName_None (k : gostring) :
  Forall (fun s => strings.eqb k (slotName s) = false) allSlots ->
  slotOfName k = None.
Proof.
  unfold slotOfName. induction allSlots as [|s l IH]; intros H;
    [reflexivity|].
  inversion H as [|? ? Hs Hl]; subst. simpl. rewrite Hs. exact (IH Hl).
Qed.

Lemma slotOfName_slotName (s : Slot) : slotOfName (slotName s) = Some s.
Proof. destruct s as [[]|]; reflexivity. Qed.

(** One [case] of the [switch] of [UnmarshalText]: when [k] is [name] the
    two sides agree by computation, otherwise the next case is tried. *)
Ltac switch_case k name :=
  let E := fresh "E" in
  destruct (strings.eqb k name) eqn:E;
  [apply eqb_eq in E; rewrite E; reflexivity|].

(** The loop body of [UnmarshalText] does what the contract says. *)
Lemma unmarshalPolicy_decodePiece (c : CSP) (p : gostring) :
  unmarshalPolicy c p = decodePiece c p.
Proof.
  unfold unmarshalPolicy, decodePiece, pieceNameValue.
  rewrite SplitN_cut.
  destruct (cut (strings.TrimSpace p) " ") as [[a r]|] eqn:E.
  - assert (Hp : strings.eqb p [] = false).
    { destruct p; [discriminate E | reflexivity]. }
    rewrite Hp. cbn [length Nat.eqb negb orb nth].
    set (k := strings.TrimSpace a). set (v := strings.TrimSpace r).
    switch_case k childSrc. switch_case k connectSrc.
    switch_case k defaultSrc. switch_case k fontSrc.
    switch_case k frameSrc. switch_case k imgSrc.
    switch_case k manifestSrc. switch_case k mediaSrc.
    switch_case k objectSrc. switch_case k scriptSrc.
    switch_case k styleSrc. switch_case k workerSrc.
    switch_case k reportTo.
    rewrite slotOfName_None; [reflexivity|].
    unfold allSlots, marshalOrder. cbn [map app].
    repeat constructor; assumption.
  - destruct (strings.eqb p []); reflexivity.
Qed.

Lemma fold_left_ext_eq {A B : Type} (f g : A -> B -> A) (l : list B) (a : A) :
  (forall x y, f x y = g x y) -> fold_left f l a = fold_left g l a.
Proof.
  intros H. revert a; induction l as [|y l IH]; intros a; simpl;
    [reflexivity|]. rewrite H. apply IH.
Qed.

Lemma UnmarshalText_decodePiece (c : CSP) (text : gostring) :
  fst (UnmarshalText c text) =
  fold_left decodePiece (strings.Split text ";") c.
Proof.
  unfold UnmarshalText. simpl fst.
  apply fold_left_ext_eq, unmarshalPolicy_decodePiece.
Qed.

Lemma Slot_eqb_eq (a b : Slot) : Slot_eqb a b = true <-> a = b.
Proof.
  destruct a as [[]|], b as [[]|]; simpl; split; intros H;
    try reflexivity; try discriminate.
Qed.

Lemma Slot_eqb_refl (a : Slot) : Slot_eqb a a = true.
Proof. apply Slot_eqb_eq; reflexivity. Qed.

Lemma allSlots_NoDup : NoDup allSlots.
Proof.
  unfold allSlots, marshalOrder. cbn [map app].
  repeat (constructor; [simpl; intuition discriminate|]). constructor.
Qed.

Lemma allSlots_all (s : Slot) : In s allSlots.
Proof. destruct s as [[]|]; simpl; tauto. Qed.

Lemma sameSlot_slotGet (s : Slot) (c c' : CSP) :
  sameSlot s c c' <-> slotGet s c' = slotGet s c.
Proof.
  destruct s as [d|]; simpl; [tauto|].
  split; [intros ->; reflexivity | intros [= H]; exact H].
Qed.

(** An assignment changes the slot it names and no other. *)
Lemma slotGet_assign (s s' : Slot) (v : gostring) (c : CSP) :
  slotGet s (assign s' v c) =
  if Slot_eqb s s' then
    match s with
    | SourcesOf _ => strings.Split v " "
    | SlotReportTo => [v]
    end
  else slotGet s c.
Proof. destruct s as [[]|], s' as [[]|]; reflexivity. Qed.

Lemma decodePiece_other (s : Slot) (c : CSP) (p : gostring) :
  pieceSlot p <> Some s -> slotGet s (decodePiece c p) = slotGet s c.
Proof.
  unfold pieceSlot, decodePiece.
  destruct (pieceNameValue p) as [[k v]|]; [|reflexivity].
  destruct (slotOfName k) as [s'|]; [|reflexivity].
  intros H. rewrite slotGet_assign.
  destruct (Slot_eqb s s') eqn:E; [|reflexivity].
  apply Slot_eqb_eq in E. congruence.
Qed.

Lemma fold_decodePiece_other (s : Slot) (pieces : list gostring) (c : CSP) :
  Forall (fun p => pieceSlot p <> Some s) pieces ->
  slotGet s (fold_left decodePiece pieces c) = slotGet s c.
Proof.
  revert c; induction pieces as [|p l IH]; intros c H; [reflexivity|].
  inversion H as [|? ? Hp Hl]; subst. simpl.
  rewrite (IH _ Hl). apply decodePiece_other, Hp.
Qed.

Lemma names_false (text : gostring) (s : Slot) :
  names text s = false ->
  Forall (fun p => pieceSlot p <> Some s) (strings.Split text ";").
Proof.
  unfold names. intros H. apply Forall_forall. intros p Hp E.
  assert (Hx : existsb
                 (fun p => match pieceSlot p with
                           | Some s' => Slot_eqb s s'
                           | None => false
                           end) (strings.Split text ";") = true).
  { apply existsb_exists. exists p. split; [exact Hp|].
    rewrite E. apply Slot_eqb_refl. }
  congruence.
Qed.

(** ** The claims on the codec *)

(** C3. The default policy encodes to the literal
    [default-src 'none'; connect-src 'self'; img-src 'self'; script-src 'self'; style-src 'self'],
    the directives in the order of [MarshalText] and no separator at the
    end, and the encoder reports no error. *)
Theorem Default_MarshalText :
  MarshalText Default =
  (lit "default-src 'none'; connect-src 'self'; img-src 'self'; script-src 'self'; style-src 'self'",
   None).
Proof. vm_compute. reflexivity. Qed.


(** C10. [UnmarshalText] merges into its receiver: a slot that no piece
    of the text names keeps the value it had before the call. *)
Theorem UnmarshalText_frame (c : CSP) (text : gostring) (s : Slot) :
  names text s = false -> sameSlot s c (fst (UnmarshalText c text)).
Proof.
  intros H. apply sameSlot_slotGet. rewrite UnmarshalText_decodePiece.
  apply fold_decodePiece_other, names_false, H.
Qed.

Lemma UnmarshalText_frame_witness :
  names (lit "img-src *; frame-options deny; default-src") (SourcesOf DDefaultSrc)
  = false
  /\ sameSlot (SourcesOf DDefaultSrc) Default
       (fst (UnmarshalText Default
               (lit "img-src *; frame-options deny; default-src"))).
Proof.
  split; [reflexivity|].
  apply (UnmarshalText_frame Default
           (lit "img-src *; frame-options deny; default-src")
           (SourcesOf DDefaultSrc)).
  reflexivity.
Defined.

(** ** The round trip *)

Lemma In_Join (x : ascii) (l : list gostring) (sep : gostring) :
  In x (strings.Join l sep) -> In x sep \/ exists t, In t l /\ In x t.
Proof.
  induction l as [|t l IH]; simpl; [intros []|].
  destruct l as [|u l].
  - intros H. right. exists t; auto.
  - intros H. apply in_app_or in H. destruct H as [H|H].
    + right. exists t; auto.
    + apply in_app_or in H. destruct H as [H|H]; [left; exact H|].
      destruct (IH H) as [H'|(t' & Ht' & Hx)]; [left; exact H'|].
      right. exists t'. split; [right; exact Ht' | exact Hx].
Qed.

(** Joining strings without white space at their ends, with a separator
    whose first and last byte are no part of a longer space rune, gives
    such a string. *)
Lemma Join_noSpaceAtEnds (l : list gostring) (c1 c2 : ascii)
  (sepTail sepInit : gostring) :
  c1 :: sepTail = sepInit ++ [c2] ->
  headOnly strings.spaceRunes c1 = true ->
  headOnly strings.revRunes c2 = true ->
  l <> [] -> Forall noSpaceAtEnds l ->
  noSpaceAtEnds (strings.Join l (c1 :: sepTail)).
Proof.
  intros Hsep H1 H2. induction l as [|t l IH]; [congruence|].
  intros _ H. inversion H as [|? ? Ht Hl]; subst.
  destruct l as [|u l]; [exact Ht|].
  assert (HJ : noSpaceAtEnds (strings.Join (u :: l) (c1 :: sepTail)))
    by (apply IH; [discriminate | exact Hl]).
  set (J := strings.Join (u :: l) (c1 :: sepTail)) in *.
  change (strings.Join (t :: u :: l) (c1 :: sepTail))
    with (t ++ c1 :: (sepTail ++ J)).
  destruct Ht as (Hne & Hleft & _). destruct HJ as (HJne & _ & HJright).
  split; [destruct t; [congruence | discriminate]|]. split.
  - apply dropOne_app_sep; [apply headOnly_spec, H1 | exact Hne | exact Hleft].
  - replace (rev (t ++ c1 :: sepTail ++ J))
      with (rev J ++ c2 :: (rev sepInit ++ rev t)).
    + apply dropOne_app_sep; [apply headOnly_spec, H2 | | exact HJright].
      intros E. apply HJne. rewrite <- (rev_involutive J), E. reflexivity.
    + change (t ++ c1 :: sepTail ++ J) with (t ++ (c1 :: sepTail) ++ J).
      rewrite Hsep, !rev_app_distr. simpl. rewrite <- !app_assoc.
      reflexivity.
Qed.

Lemma plainToken_spec (t : gostring) :
  plainToken t = true -> t <> [] /\ ~ In " " t /\ ~ In ";" t.
Proof.
  unfold plainToken. rewrite !andb_true_iff, !negb_true_iff.
  intros [[Hne Hsp] Hsemi].
  apply existsb_eqb_In in Hsp. apply existsb_eqb_In in Hsemi.
  apply eqb_neq in Hne. auto.
Qed.

Lemma Join_nonempty (l : list gostring) (sep : gostring) :
  l <> [] -> Forall (fun t => t <> []) l -> strings.Join l sep <> [].
Proof.
  destruct l as [|t l]; [congruence|]. intros _ H.
  inversion H as [|? ? Ht _]; subst. simpl.
  destruct l; [exact Ht|]. destruct t; [congruence | discriminate].
Qed.

Lemma trimmedValues_slot (P : CSP) (s : Slot) :
  trimmedValues P = true ->
  strings.TrimSpace (slotText s P) = slotText s P.
Proof.
  unfold trimmedValues. rewrite forallb_forall. intros H.
  apply eqb_eq, H, allSlots_all.
Qed.

Lemma slotName_no_space (s : Slot) : ~ In " " (slotName s).
Proof. apply existsb_eqb_In. destruct s as [[]|]; reflexivity. Qed.

Lemma slotName_no_semicolon (s : Slot) : ~ In ";" (slotName s).
Proof. apply existsb_eqb_In. destruct s as [[]|]; reflexivity. Qed.

Lemma slotName_TrimSpace (s : Slot) : strings.TrimSpace (slotName s) = slotName s.
Proof. destruct s as [[]|]; reflexivity. Qed.

(** The entry of a slot has no white space at its ends when its text has
    none. *)
Lemma entry_noSpaceAtEnds (s : Slot) (v : gostring) :
  noSpaceAtEnds v -> noSpaceAtEnds (Sprintf_s_s (slotName s) v).
Proof.
  intros (Hne & _ & Hright). unfold Sprintf_s_s.
  split; [destruct s as [[]|]; discriminate|]. split.
  - destruct s as [[]|]; reflexivity.
  - replace (rev (slotName s ++ " " :: v))
      with (rev v ++ " " :: rev (slotName s))
      by (rewrite rev_app_distr; simpl; rewrite <- app_assoc; reflexivity).
    apply dropOne_app_sep; [apply headOnly_spec; reflexivity | | exact Hright].
    intros E. apply Hne. rewrite <- (rev_involutive v), E. reflexivity.
Qed.

Lemma noSpaceAtEnds_TrimSpace (v : gostring) :
  noSpaceAtEnds v -> strings.TrimSpace v = v.
Proof. intros (_ & Hl & Hr). apply TrimSpace_fixed; assumption. Qed.

(** Decoding the entry of a slot assigns the slot. *)
Lemma decodePiece_entry (s : Slot) (v : gostring) (c : CSP) :
  noSpaceAtEnds v -> decodePiece c (Sprintf_s_s (slotName s) v) = assign s v c.
Proof.
  intros Hv. unfold decodePiece, pieceNameValue.
  rewrite (noSpaceAtEnds_TrimSpace _ (entry_noSpaceAtEnds s v Hv)).
  unfold Sprintf_s_s. rewrite cut_app_sep by apply slotName_no_space.
  rewrite slotName_TrimSpace, slotOfName_slotName.
  rewrite (noSpaceAtEnds_TrimSpace _ Hv). reflexivity.
Qed.

Lemma decodePiece_cons_space (c : CSP) (e : gostring) :
  decodePiece c (" " :: e) = decodePiece c e.
Proof. reflexivity. Qed.

(** The pieces of a text joined with a semicolon and a space. *)
Lemma Split_Join_semicolon (es : list gostring) :
  Forall (fun e => ~ In ";" e) es ->
  strings.Split (strings.Join es (lit "; ")) ";" =
  match es with
  | [] => [[]]
  | e :: es' => e :: map (cons " ") es'
  end.
Proof.
  induction es as [|e es IH]; [reflexivity|]. intros H.
  inversion H as [|? ? He Hes]; subst.
  destruct es as [|u es].
  - simpl. apply Split_no_sep, He.
  - change (strings.Join (e :: u :: es) (lit "; "))
      with (e ++ ";" :: " " :: strings.Join (u :: es) (lit "; ")).
    rewrite Split_app_sep by exact He.
    change (strings.Split (" " :: strings.Join (u :: es) (lit "; ")) ";")
      with (strings.consHead " "
              (strings.Split (strings.Join (u :: es) (lit "; ")) ";")).
    rewrite (IH Hes). reflexivity.
Qed.

Lemma fold_decodePiece_spaces (es : list gostring) (c : CSP) :
  fold_left decodePiece (map (cons " ") es) c = fold_left decodePiece es c.
Proof.
  revert c; induction es as [|e es IH]; intros c; [reflexivity|].
  simpl. rewrite decodePiece_cons_space. apply IH.
Qed.

Lemma fold_decodePiece_Join (es : list gostring) (c : CSP) :
  Forall (fun e => ~ In ";" e) es ->
  fold_left decodePiece (strings.Split (strings.Join es (lit "; ")) ";") c
  = fold_left decodePiece es c.
Proof.
  intros H. rewrite (Split_Join_semicolon es H).
  destruct es as [|e es]; [reflexivity|].
  simpl. apply fold_decodePiece_spaces.
Qed.

Lemma allTokens_sources (ok : gostring -> bool) (P : CSP) (d : Directive) :
  allTokens ok P = true -> Forall (fun t => ok t = true) (sources d P).
Proof.
  unfold allTokens. rewrite andb_true_iff. intros [H _].
  rewrite forallb_forall in H. apply Forall_forall. apply forallb_forall.
  apply H. destruct d; simpl; tauto.
Qed.

Lemma allTokens_scalar (ok : gostring -> bool) (P : CSP) :
  allTokens ok P = true -> ReportTo P = [] \/ ok (ReportTo P) = true.
Proof.
  unfold allTokens. rewrite andb_true_iff, orb_true_iff, eqb_eq. tauto.
Qed.

Lemma present_sources (d : Directive) (P : CSP) :
  present (SourcesOf d) P = true -> sources d P <> [].
Proof. simpl. destruct (sources d P); [discriminate | discriminate]. Qed.

(** The text of a present slot of a clean policy: no white space at its
    ends, no semicolon, and it decodes to the content of the slot. *)
Lemma slotText_clean (P c : CSP) (s : Slot) :
  cleanPolicy P = true -> present s P = true ->
  noSpaceAtEnds (slotText s P) /\ ~ In ";" (slotText s P)
  /\ slotGet s (assign s (slotText s P) c) = slotGet s P.
Proof.
  unfold cleanPolicy. rewrite andb_true_iff. intros [HP Htrim] Hs.
  rewrite slotGet_assign, Slot_eqb_refl.
  pose proof (TrimSpace_fixed_inv _ (trimmedValues_slot P s Htrim))
    as [Hleft Hright].
  destruct s as [d|].
  - pose proof (present_sources d P Hs) as Hne.
    pose proof (allTokens_sources _ _ d HP) as Hl.
    assert (Hc : Forall (fun t => t <> [] /\ ~ In " " t /\ ~ In ";" t)
                   (sources d P)).
    { eapply Forall_impl; [|exact Hl]. apply plainToken_spec. }
    simpl slotText in *. simpl slotGet. split; [|split].
    + split; [|split; assumption]. apply Join_nonempty; [exact Hne|].
      eapply Forall_impl; [|exact Hc]. simpl. tauto.
    + intros H. apply In_Join in H. destruct H as [[H|[]]|(t & Ht & Hx)];
        [discriminate|].
      rewrite Forall_forall in Hc. destruct (Hc t Ht) as (_ & _ & Hsemi).
      exact (Hsemi Hx).
    + apply (Split_Join _ " " Hne).
      eapply Forall_impl; [|exact Hc]. simpl. tauto.
  - simpl in *. destruct (allTokens_scalar _ _ HP) as [E|E].
    + rewrite E in Hs. discriminate.
    + destruct (plainToken_spec _ E) as (Hne & _ & Hsemi).
      split; [split; [exact Hne | split; assumption]|]. auto.
Qed.

Lemma In_entry (P : CSP) (s : Slot) (e : gostring) :
  In e (entry P s) ->
  present s P = true /\ e = Sprintf_s_s (slotName s) (slotText s P).
Proof.
  unfold entry. destruct (present s P); [|intros []].
  intros [<-|[]]. auto.
Qed.

Lemma In_entries (P : CSP) (e : gostring) :
  In e (entries P) ->
  exists s, present s P = true
            /\ e = Sprintf_s_s (slotName s) (slotText s P).
Proof.
  unfold entries. rewrite in_flat_map. intros (s & _ & H).
  exists s. apply In_entry, H.
Qed.

Lemma entries_clean (P : CSP) :
  canonical P ->
  Forall (fun e => noSpaceAtEnds e /\ ~ In ";" e) (entries P).
Proof.
  intros HP. apply Forall_forall. intros e He.
  destruct (In_entries _ _ He) as (s & Hs & ->).
  destruct (HP s Hs) as (Hends & Hsemi & _).
  split; [apply entry_noSpaceAtEnds, Hends|].
  unfold Sprintf_s_s. intros H. apply in_app_or in H.
  destruct H as [H|[H|H]];
    [exact (slotName_no_semicolon s H) | discriminate | exact (Hsemi H)].
Qed.

(** The encoded text of a canonical policy is the joined entries:
    trimming removes nothing. *)
Lemma MarshalText_clean (P : CSP) :
  canonical P ->
  fst (MarshalText P) = strings.Join (entries P) (lit "; ").
Proof.
  intros HP. rewrite MarshalText_entries. simpl fst.
  pose proof (entries_clean P HP) as H.
  destruct (entries P) as [|e es] eqn:E; [reflexivity|].
  apply noSpaceAtEnds_TrimSpace.
  apply (Join_noSpaceAtEnds _ ";" " " [" "] [";"]);
    [reflexivity | reflexivity | reflexivity | discriminate |].
  eapply Forall_impl; [|exact H]. simpl. tauto.
Qed.

Lemma fold_entries (P : CSP) (ss : list Slot) (c : CSP) :
  canonical P ->
  fold_left decodePiece (flat_map (entry P) ss) c
  = fold_left (copySlot P) ss c.
Proof.
  intros HP. revert c; induction ss as [|s ss IH]; intros c; [reflexivity|].
  simpl. rewrite fold_left_app, <- IH. f_equal.
  unfold entry, copySlot. destruct (present s P) eqn:Hs; [|reflexivity].
  simpl. apply decodePiece_entry.
  apply (HP s Hs).
Qed.

Lemma fold_copySlot_other (P : CSP) (s : Slot) (ss : list Slot) (c : CSP) :
  ~ In s ss -> slotGet s (fold_left (copySlot P) ss c) = slotGet s c.
Proof.
  revert c; induction ss as [|s' ss IH]; intros c H; [reflexivity|].
  simpl. rewrite IH by (intros H'; apply H; right; exact H').
  unfold copySlot. destruct (present s' P); [|reflexivity].
  rewrite slotGet_assign. destruct (Slot_eqb s s') eqn:E; [|reflexivity].
  apply Slot_eqb_eq in E. exfalso. apply H. left. congruence.
Qed.

Lemma fold_copySlot_in (P : CSP) (s : Slot) (ss : list Slot) (c : CSP) :
  canonical P -> NoDup ss -> In s ss ->
  slotGet s (fold_left (copySlot P) ss c) =
  if present s P then slotGet s P else slotGet s c.
Proof.
  intros HP Hnd. revert c; induction Hnd as [|s' ss Hnot Hnd IH]; intros c;
    [intros []|].
  intros [->|Hin]; simpl.
  - rewrite fold_copySlot_other by exact Hnot.
    unfold copySlot. destruct (present s P) eqn:Hs; [|reflexivity].
    apply (HP s Hs).
  - rewrite (IH _ Hin). destruct (present s P); [reflexivity|].
    unfold copySlot. destruct (present s' P); [|reflexivity].
    rewrite slotGet_assign. destruct (Slot_eqb s s') eqn:E; [|reflexivity].
    apply Slot_eqb_eq in E. subst s'. contradiction.
Qed.

Lemma absent_zero (s : Slot) (P : CSP) :
  present s P = false -> slotGet s P = slotGet s zeroCSP.
Proof.
  destruct s as [d|]; simpl.
  - rewrite negb_false_iff, Nat.eqb_eq. intros H.
    apply length_zero_iff_nil in H. rewrite H. destruct d; reflexivity.
  - rewrite negb_false_iff, eqb_eq. intros ->. reflexivity.
Qed.

(** Decoding the encoded text of a canonical policy recovers every
    slot. *)
Lemma roundTrip_canonical (P : CSP) (s : Slot) :
  canonical P -> slotGet s (roundTrip P) = slotGet s P.
Proof.
  intros HP. unfold roundTrip.
  rewrite UnmarshalText_decodePiece, (MarshalText_clean P HP).
  rewrite fold_decodePiece_Join.
  - unfold entries. rewrite (fold_entries P allSlots zeroCSP HP).
    rewrite (fold_copySlot_in P s allSlots zeroCSP HP allSlots_NoDup
               (allSlots_all s)).
    destruct (present s P) eqn:Hs; [reflexivity|].
    symmetry. apply absent_zero, Hs.
  - eapply Forall_impl; [|exact (entries_clean P HP)]. simpl. tauto.
Qed.

Lemma cleanPolicy_canonical (P : CSP) : cleanPolicy P = true -> canonical P.
Proof.
  intros HP s Hs.
  destruct (slotText_clean P P s HP Hs) as (Hends & Hsemi & _).
  split; [exact Hends|]. split; [exact Hsemi|].
  intros c. apply (slotText_clean P c s HP Hs).
Qed.

(** Decoding the encoded text of a clean policy recovers every slot. *)
Lemma roundTrip_slotGet (P : CSP) (s : Slot) :
  cleanPolicy P = true -> slotGet s (roundTrip P) = slotGet s P.
Proof. intros HP. apply roundTrip_canonical, cleanPolicy_canonical, HP. Qed.

(** C1, as the code has it. For every policy whose source tokens, and
    whose scalar unless it is empty, are not empty and contain no space and
    no semicolon, and none of whose values begins or ends with white space
    (no first token of a list begins with it, no last token ends with it,
    and the same for the scalar), decoding the encoded text into a
    zero-valued policy gives back every one of the thirteen directive
    fields. *)
Theorem roundTrip_clean (P : CSP) :
  cleanPolicy P = true -> sameDirectives P (roundTrip P).
Proof.
  intros HP. unfold sameDirectives.
  pose proof (fun s => roundTrip_slotGet P s HP) as H.
  pose proof (H SlotReportTo) as HR. simpl in HR. injection HR as HR.
  repeat split;
    [ exact (H (SourcesOf DChildSrc)) | exact (H (SourcesOf DConnectSrc))
    | exact (H (SourcesOf DDefaultSrc)) | exact (H (SourcesOf DFontSrc))
    | exact (H (SourcesOf DFrameSrc)) | exact (H (SourcesOf DImgSrc))
    | exact (H (SourcesOf DManifestSrc)) | exact (H (SourcesOf DMediaSrc))
    | exact (H (SourcesOf DObjectSrc)) | exact (H (SourcesOf DScriptSrc))
    | exact (H (SourcesOf DStyleSrc)) | exact (H (SourcesOf DWorkerSrc))
    | exact HR ].
Qed.

Lemma roundTrip_clean_witness :
  cleanPolicy examplePolicy = true
  /\ sameDirectives examplePolicy (roundTrip examplePolicy).
Proof.
  split; [reflexivity|]. apply (roundTrip_clean examplePolicy). reflexivity.
Defined.

(** C1, as the claim words it, fails: the token made of the letter [a]
    and a tab is not empty and has neither a space nor a semicolon, and the
    scalar is plain and not empty, yet the tab is lost on the way and the
    decoded [DefaultSrc] differs. *)
Lemma roundTrip_plain_counterexample :
  allTokens plainToken tabEnded = true
  /\ plainToken (ReportTo tabEnded) = true
  /\ ~ sameDirectives tabEnded (roundTrip tabEnded).
Proof.
  split; [reflexivity|]. split; [reflexivity|].
  intros (_ & _ & H & _). vm_compute in H. discriminate H.
Qed.

(** ** Which names the encoded text contains *)

Lemma Join_In (e : gostring) (es : list gostring) (sep : gostring) :
  In e es -> exists a z, strings.Join es sep = a ++ e ++ z.
Proof.
  induction es as [|u es IH]; [intros []|].
  intros [->|H].
  - destruct es as [|u' es].
    + exists [], []. simpl. rewrite app_nil_r. reflexivity.
    + exists [], (sep ++ strings.Join (u' :: es) sep). reflexivity.
  - destruct es as [|u' es]; [destruct H|].
    destruct (IH H) as (a & z & E).
    exists (u ++ sep ++ a), z.
    change (strings.Join (u :: u' :: es) sep)
      with (u ++ sep ++ strings.Join (u' :: es) sep).
    rewrite E, <- !app_assoc. reflexivity.
Qed.

Lemma Contains_nil (n : gostring) : n <> [] -> Contains [] n = false.
Proof. destruct n; [congruence | reflexivity]. Qed.

(** An occurrence of [n] in [e ++ sep ++ r], where no byte of the
    separator is in [n], lies in [e] or in [r]. *)
Lemma Contains_app_sep (sep e r n : gostring) :
  sep <> [] -> n <> [] -> (forall x, In x sep -> ~ In x n) ->
  Contains (e ++ sep ++ r) n = true ->
  Contains e n = true \/ Contains r n = true.
Proof.
  intros Hsep Hn. revert e. induction sep as [|c sep IH]; [congruence|].
  intros e Hc H. simpl in H.
  apply Contains_sep in H; [|apply Hc; left; reflexivity].
  destruct H as [H|H]; [left; exact H|].
  destruct sep as [|c' sep]; [right; exact H|].
  destruct (IH ltac:(discriminate) []
              (fun x Hx => Hc x (or_intror Hx)) H) as [H'|H'].
  - rewrite Contains_nil in H' by exact Hn. discriminate.
  - right. exact H'.
Qed.

Lemma Contains_Join (es : list gostring) (sep n : gostring) :
  sep <> [] -> n <> [] -> (forall x, In x sep -> ~ In x n) ->
  Contains (strings.Join es sep) n = true ->
  exists e, In e es /\ Contains e n = true.
Proof.
  intros Hsep Hn Hc. induction es as [|e es IH].
  - cbn [strings.Join]. rewrite Contains_nil by exact Hn. discriminate.
  - destruct es as [|u es].
    + intros H. exists e. split; [left; reflexivity | exact H].
    + change (strings.Join (e :: u :: es) sep)
        with (e ++ sep ++ strings.Join (u :: es) sep).
      intros H. apply Contains_app_sep in H; try assumption.
      destruct H as [H|H].
      * exists e. split; [left; reflexivity | exact H].
      * destruct (IH H) as (e' & He' & Hc'). exists e'.
        split; [right; exact He' | exact Hc'].
Qed.

Lemma Contains_trans (s t n : gostring) :
  (exists p q, s = p ++ t ++ q) -> Contains t n = true ->
  Contains s n = true.
Proof.
  intros (p & q & ->) H. apply Contains_infix in H.
  destruct H as (a & z & ->). apply Contains_infix.
  exists (p ++ a), (z ++ q). rewrite <- !app_assoc. reflexivity.
Qed.

Lemma slotName_nonempty (s : Slot) : slotName s <> [].
Proof. destruct s as [[]|]; discriminate. Qed.

(** No directive name is a part of another one. *)
Lemma slotName_Contains (s s' : Slot) :
  Contains (slotName s') (slotName s) = true -> s' = s.
Proof.
  destruct s as [[]|], s' as [[]|]; intros H;
    try reflexivity; vm_compute in H; discriminate H.
Qed.

Lemma slotName_head (s : Slot) :
  exists c n, slotName s = c :: n /\ inNoRune strings.spaceRunes c = true.
Proof. destruct s as [[]|]; eexists; eexists; split; reflexivity. Qed.

Lemma slotName_last (s : Slot) :
  exists n c, slotName s = n ++ [c] /\ inNoRune strings.revRunes c = true.
Proof.
  exists (removelast (slotName s)), (last (slotName s) " ").
  destruct s as [[]|]; split; reflexivity.
Qed.

Lemma present_In_entries (c : CSP) (s : Slot) :
  present s c = true ->
  In (Sprintf_s_s (slotName s) (slotText s c)) (entries c).
Proof.
  intros H. unfold entries. apply in_flat_map. exists s.
  split; [apply allSlots_all|]. unfold entry. rewrite H. left. reflexivity.
Qed.

(** The name of a present slot is in the encoded text. *)
Lemma present_Contains (c : CSP) (s : Slot) :
  present s c = true ->
  Contains (fst (MarshalText c)) (slotName s) = true.
Proof.
  intros Hs. rewrite MarshalText_entries. cbn [fst].
  pose proof (present_In_entries c s Hs) as Hin.
  destruct (Join_In _ _ (lit "; ") Hin) as (a & z & E).
  assert (Hhead : exists c1 rest,
             strings.Join (entries c) (lit "; ") = c1 :: rest
             /\ inNoRune strings.spaceRunes c1 = true).
  { destruct (entries c) as [|e1 es] eqn:Ee; [destruct Hin|].
    assert (H1 : In e1 (entries c)) by (rewrite Ee; left; reflexivity).
    destruct (In_entries _ _ H1) as (s1 & _ & ->).
    destruct (slotName_head s1) as (c1 & n1 & En & Hc1).
    unfold Sprintf_s_s. rewrite En.
    destruct es; simpl; eauto. }
  destruct Hhead as (c1 & rest & Eh & Hc1).
  unfold strings.TrimSpace. rewrite Eh, (TrimLeftSpace_head _ _ Hc1), <- Eh.
  rewrite E. destruct (slotName_last s) as (n & c2 & En & Hc2).
  unfold Sprintf_s_s. rewrite En.
  replace (a ++ ((n ++ [c2]) ++ " " :: slotText s c) ++ z)
    with ((a ++ n) ++ c2 :: (" " :: slotText s c) ++ z)
    by (rewrite <- !app_assoc; reflexivity).
  destruct (TrimRightSpace_keeps (a ++ n) ((" " :: slotText s c) ++ z) c2 Hc2)
    as (z' & ->).
  apply Contains_infix. exists a, z'. rewrite <- !app_assoc. reflexivity.
Qed.

Lemma valuesFreeOfAbsentNames_token (c : CSP) (d : Directive) (t : gostring)
  (s : Slot) :
  valuesFreeOfAbsentNames c = true -> present s c = false ->
  In t (sources d c) -> Contains t (slotName s) = false.
Proof.
  intros H Hs Ht. pose proof (allTokens_sources _ _ d H) as Hl.
  rewrite Forall_forall in Hl. specialize (Hl t Ht). cbv beta in Hl.
  rewrite forallb_forall in Hl. specialize (Hl s (allSlots_all s)).
  rewrite Hs in Hl. apply negb_true_iff, Hl.
Qed.

Lemma valuesFreeOfAbsentNames_scalar (c : CSP) (s : Slot) :
  valuesFreeOfAbsentNames c = true -> present s c = false ->
  Contains (ReportTo c) (slotName s) = false.
Proof.
  intros H Hs. destruct (allTokens_scalar _ _ H) as [E|E].
  - rewrite E. apply Contains_nil, slotName_nonempty.
  - rewrite forallb_forall in E. specialize (E s (allSlots_all s)).
    rewrite Hs in E. apply negb_true_iff, E.
Qed.

(** When no value contains the name of an absent directive, a name in the
    encoded text is the name of a present slot. *)
Lemma Contains_present (c : CSP) (s : Slot) :
  valuesFreeOfAbsentNames c = true ->
  Contains (fst (MarshalText c)) (slotName s) = true ->
  present s c = true.
Proof.
  intros Hfree H. destruct (present s c) eqn:Hs; [reflexivity|]. exfalso.
  rewrite MarshalText_entries in H. cbn [fst] in H.
  apply (Contains_trans _ _ _ (TrimSpace_infix _)) in H.
  apply Contains_Join in H;
    [ | discriminate | apply slotName_nonempty | ].
  2:{ intros x [<-|[<-|[]]];
        [apply slotName_no_semicolon | apply slotName_no_space]. }
  destruct H as (e & He & H).
  destruct (In_entries _ _ He) as (s' & Hs' & ->).
  unfold Sprintf_s_s in H.
  apply Contains_sep in H; [|apply slotName_no_space].
  destruct H as [H|H].
  - apply slotName_Contains in H. subst s'. congruence.
  - destruct s' as [d|]; simpl in H.
    + apply Contains_Join in H;
        [ | discriminate | apply slotName_nonempty | ].
      2:{ intros x [<-|[]]. apply slotName_no_space. }
      destruct H as (t & Ht & H).
      rewrite (valuesFreeOfAbsentNames_token c d t s Hfree Hs Ht) in H.
      discriminate.
    + rewrite (valuesFreeOfAbsentNames_scalar c s Hfree Hs) in H.
      discriminate.
Qed.

Lemma noSlotPresent_entries (c : CSP) :
  noSlotPresent c = true -> entries c = [].
Proof.
  unfold noSlotPresent, entries. intros H. rewrite forallb_forall in H.
  induction allSlots as [|s l IH]; [reflexivity|].
  simpl. rewrite IH by (intros x Hx; apply H; right; exact Hx).
  unfold entry. specialize (H s (or_introl eq_refl)).
  apply negb_true_iff in H. rewrite H. reflexivity.
Qed.

(** C5, as the code has it. For every policy [MarshalText] returns the
    nil error; a policy without a present slot encodes to the empty string;
    the name of every present slot is in the encoded text; and when no source
    token and not the scalar contains the name of an absent directive, a
    directive name is in the encoded text only if its slot is present. *)
Theorem MarshalText_names (c : CSP) :
  snd (MarshalText c) = None
  /\ (noSlotPresent c = true -> fst (MarshalText c) = [])
  /\ (forall s, present s c = true ->
                Contains (fst (MarshalText c)) (slotName s) = true)
  /\ (valuesFreeOfAbsentNames c = true ->
      forall s, Contains (fst (MarshalText c)) (slotName s) = true ->
                present s c = true).
Proof.
  split; [reflexivity|]. split; [|split].
  - intros H. rewrite MarshalText_entries, (noSlotPresent_entries c H).
    reflexivity.
  - intros s. apply present_Contains.
  - intros H s. apply Contains_present, H.
Qed.

Lemma MarshalText_names_witness :
  noSlotPresent zeroCSP = true /\ fst (MarshalText zeroCSP) = []
  /\ present (SourcesOf DImgSrc) examplePolicy = true
  /\ Contains (fst (MarshalText examplePolicy)) imgSrc = true
  /\ valuesFreeOfAbsentNames examplePolicy = true
  /\ (Contains (fst (MarshalText examplePolicy)) reportTo = true ->
      present SlotReportTo examplePolicy = true).
Proof.
  split; [reflexivity|].
  split; [exact (proj1 (proj2 (MarshalText_names zeroCSP)) eq_refl)|].
  split; [reflexivity|].
  split;
    [exact (proj1 (proj2 (proj2 (MarshalText_names examplePolicy)))
              (SourcesOf DImgSrc) eq_refl)|].
  split; [reflexivity|].
  exact (proj2 (proj2 (proj2 (MarshalText_names examplePolicy))) eq_refl
           SlotReportTo).
Defined.

(** C5, as the claim words it, fails: with [img-src] as the one token of
    [default-src], the encoded text contains the name [img-src] although the
    [ImgSrc] slot is absent. *)
Lemma MarshalText_names_counterexample :
  fst (MarshalText nameAsToken) = lit "default-src img-src"
  /\ Contains (fst (MarshalText nameAsToken)) (slotName (SourcesOf DImgSrc))
     = true
  /\ present (SourcesOf DImgSrc) nameAsToken = false.
Proof. repeat split; reflexivity. Qed.

(** ** The middleware *)

Lemma Get_Set (hdr : http.Header) (key value : gostring) :
  http.Get (http.Set_ hdr key value) key = value.
Proof.
  unfold http.Get, http.Set_. simpl. rewrite eqb_refl. reflexivity.
Qed.

(** C7. The wrapper built by [Handler] sets the policy header, under
    [Content-Security-Policy] or, in report-only mode, under
    [Content-Security-Policy-Report-Only], to the encoded policy and hands
    the request to the wrapped handler; and the encoding never fails, so the
    request is never held back. *)
Theorem ServeHTTP_delegates (c : CSP) (next : http.Handler)
  (w : http.ResponseWriter) (r : http.Request) :
  let key := if ReportOnly c then HeaderReportOnly else HeaderPolicy in
  let w' := http.SetHeader w key (fst (MarshalText c)) in
  snd (MarshalText c) = None
  /\ snd (Handler c next) w r = next w' r
  /\ http.Get (http.HeaderMap w') key = fst (MarshalText c)
  /\ key = http.CanonicalMIMEHeaderKey key.
Proof.
  cbv zeta. split; [reflexivity|]. split; [reflexivity|].
  split; [apply Get_Set|]. destruct (ReportOnly c); reflexivity.
Qed.

(** ** The report endpoint *)

(** C8 fails on the code: the default error hook writes the text of the
    error first, which fixes the status at 200, and its later
    [WriteHeader(status)] is ignored.  On a fresh response writer the body is
    the text of the error, and the recorded status is 200 whatever [status]
    is. *)
Theorem defaultErrorHandler_status (jsonErrorText : json_errors.t -> gostring)
  (r : http.Request) (status : Z) (err : error) :
  defaultErrorHandler_Error jsonErrorText http.NewRecorder r status err =
  Some (http.mkResponseWriter 200 [] (Error jsonErrorText err) true).
Proof. reflexivity. Qed.

(** So a report of a wrong content type, served with the default hooks,
    is answered with the text of the error under the status 200, not 415. *)
Lemma RouteHandler_default_wrong_type :
  RouteHandler (fun _ => []) [] http.NewRecorder plainRequest =
  mkServed [CallError 415 errUnsupported]
    (Some (http.mkResponseWriter 200 []
             (lit "Unsupported content type (expected application/csp-report)")
             true)).
Proof. reflexivity. Qed.

(** Runs the steps of a handler as far as they compute. *)
Ltac run_steps :=
  unfold ReadAll, Report_, Error_, WriteHeader, defer, bind, call, onWriter,
    return_, ret;
  cbn [fst snd calls response app negb].

(** C2. The failures of the report handler.  With a content type other
    than [application/csp-report] the error hook is called with 415 and
    nothing else happens: the body is not read and the sink is not called.
    When the body cannot be read, or is not JSON that decodes into the
    envelope, the error hook is called with 400 and the sink is not called.
    When the sink returns an error, the error hook is called with 500.  In
    each case the hook is called once, its result is the response, and only
    the deferred closing of the body follows. *)
Theorem RouteHandler_failures (jsonErrorText : json_errors.t -> gostring)
  (opts : list Opt) (w : http.ResponseWriter) (r : http.Request) :
  let served := RouteHandler jsonErrorText opts w r in
  let hook := ErrorHandler_Error (chooseErrorHandler jsonErrorText opts) in
  let sink := ReportHandler_Report (chooseReportHandler opts) in
  let contentType := http.Get (http.ReqHeader r) (lit "Content-Type") in
  let decoded body := json_Unmarshal body (mk_cspReport zeroReport) in
  (contentType <> ReportContentType ->
   calls served = [CallError 415 errUnsupported]
   /\ response served = hook w r 415%Z errUnsupported)
  /\ (contentType = ReportContentType ->
      forall err, http.ReqBody r = http.BodyError err ->
      calls served = [CallReadAll; CallError 400 err; CallClose]
      /\ response served = hook w r 400%Z err)
  /\ (contentType = ReportContentType ->
      forall body err, http.ReqBody r = http.BodyBytes body ->
      snd (decoded body) = Some err ->
      calls served = [CallReadAll; CallError 400 err; CallClose]
      /\ response served = hook w r 400%Z err)
  /\ (contentType = ReportContentType ->
      forall body err, http.ReqBody r = http.BodyBytes body ->
      snd (decoded body) = None ->
      sink (cspReport_Report (fst (decoded body))) = Some err ->
      calls served =
        [CallReadAll; CallReport (cspReport_Report (fst (decoded body)));
         CallError 500 err; CallClose]
      /\ response served = hook w r 500%Z err).
Proof.
  cbv zeta. unfold RouteHandler, routeHandler. split; [|split; [|split]].
  - intros Hct. apply eqb_neq in Hct. rewrite Hct. run_steps.
    destruct (ErrorHandler_Error _ w r _ _); split; reflexivity.
  - intros Hct err Hbody. rewrite Hct, eqb_refl. run_steps. rewrite Hbody.
    run_steps.
    destruct (ErrorHandler_Error _ w r _ _); split; reflexivity.
  - intros Hct body err Hbody Hdec. rewrite Hct, eqb_refl. run_steps.
    rewrite Hbody. run_steps.
    destruct (json_Unmarshal body (mk_cspReport zeroReport)) as [rep e].
    cbn [snd] in Hdec. subst e. run_steps.
    destruct (ErrorHandler_Error _ w r _ _); split; reflexivity.
  - intros Hct body err Hbody Hdec Hsink. rewrite Hct, eqb_refl. run_steps.
    rewrite Hbody. run_steps.
    destruct (json_Unmarshal body (mk_cspReport zeroReport)) as [rep e].
    cbn [snd fst] in Hdec, Hsink |- *. subst e. run_steps. rewrite Hsink.
    run_steps.
    destruct (ErrorHandler_Error _ w r _ _); split; reflexivity.
Qed.

Lemma RouteHandler_failures_witness :
  calls (RouteHandler (fun _ => []) [] http.NewRecorder plainRequest)
  = [CallError 415 errUnsupported]
  /\ calls (RouteHandler (fun _ => []) [] http.NewRecorder
              (reportRequest (http.BodyError (errorString (lit "EOF")))))
     = [CallReadAll; CallError 400 (errorString (lit "EOF")); CallClose]
  /\ calls (RouteHandler (fun _ => []) [] http.NewRecorder
              (reportRequest (http.BodyBytes (lit "not json"))))
     = [CallReadAll; CallError 400 (jsonError json_errors.SyntaxError);
        CallClose]
  /\ calls (RouteHandler (fun _ => []) [mkOpt (Some failingReporter) None]
              http.NewRecorder (reportRequest (http.BodyBytes exampleBody)))
     = [CallReadAll; CallReport exampleReport;
        CallError 500 (errorString (lit "sink down")); CallClose].
Proof.
  split; [|split; [|split]].
  - apply (proj1 (RouteHandler_failures (fun _ => []) [] http.NewRecorder
                    plainRequest)).
    intros E. vm_compute in E. discriminate E.
  - apply (proj1 (proj2 (RouteHandler_failures (fun _ => []) []
                           http.NewRecorder
                           (reportRequest
                              (http.BodyError (errorString (lit "EOF"))))))
             eq_refl (errorString (lit "EOF")) eq_refl).
  - apply (proj1 (proj2 (proj2 (RouteHandler_failures (fun _ => []) []
                                  http.NewRecorder
                                  (reportRequest
                                     (http.BodyBytes (lit "not json"))))))
             eq_refl (lit "not json") (jsonError json_errors.SyntaxError)
             eq_refl eq_refl).
  - apply (proj2 (proj2 (proj2 (RouteHandler_failures (fun _ => [])
                                  [mkOpt (Some failingReporter) None]
                                  http.NewRecorder
                                  (reportRequest
                                     (http.BodyBytes exampleBody)))))
             eq_refl exampleBody (errorString (lit "sink down"))
             eq_refl eq_refl eq_refl).
Defined.

Lemma json_Unmarshal_example :
  json_Unmarshal exampleBody (mk_cspReport zeroReport)
  = (mk_cspReport exampleReport, None).
Proof. vm_compute. reflexivity. Qed.

(** C6. For a request of content type [application/csp-report] whose
    body is the example envelope, and a sink that accepts the report, the
    sink is called once, with the report that has the five fields of the
    envelope and nothing else; no error hook is called; the status 200 is
    written, and on a fresh response writer the response is 200 with an
    empty body. *)
Theorem RouteHandler_example (jsonErrorText : json_errors.t -> gostring)
  (opts : list Opt) (w : http.ResponseWriter) (hdr : http.Header) :
  http.Get hdr (lit "Content-Type") = ReportContentType ->
  ReportHandler_Report (chooseReportHandler opts) exampleReport = None ->
  let r := http.mkRequest hdr (http.BodyBytes exampleBody) in
  calls (RouteHandler jsonErrorText opts w r)
  = [CallReadAll; CallReport exampleReport; CallClose]
  /\ response (RouteHandler jsonErrorText opts w r)
     = http.WriteHeader w http.StatusOK
  /\ response (RouteHandler jsonErrorText opts http.NewRecorder r)
     = Some (http.mkResponseWriter 200 [] [] true).
Proof.
  intros Hct Hsink. cbv zeta. unfold RouteHandler, routeHandler.
  cbn [http.ReqHeader]. rewrite Hct, eqb_refl. run_steps.
  cbn [http.ReqBody fst snd]. rewrite json_Unmarshal_example. run_steps.
  cbn [cspReport_Report]. rewrite Hsink. run_steps.
  split; [destruct (http.WriteHeader w http.StatusOK); reflexivity|].
  split; [destruct (http.WriteHeader w http.StatusOK); reflexivity|].
  reflexivity.
Qed.

Lemma RouteHandler_example_witness :
  calls (RouteHandler (fun _ => []) [mkOpt (Some MockReporter) None]
           http.NewRecorder
           (reportRequest (http.BodyBytes exampleBody)))
  = [CallReadAll; CallReport exampleReport; CallClose]
  /\ response (RouteHandler (fun _ => []) [mkOpt (Some MockReporter) None]
                 http.NewRecorder
                 (reportRequest (http.BodyBytes exampleBody)))
     = Some (http.mkResponseWriter 200 [] [] true).
Proof.
  pose proof (RouteHandler_example (fun _ => [])
                [mkOpt (Some MockReporter) None] http.NewRecorder
                [(lit "Content-Type", [ReportContentType])]
                eq_refl eq_refl) as H.
  split; [exact (proj1 H) | exact (proj2 (proj2 H))].
Defined.

Lemma decodeEnvelopeMembers_lacking (ms : list (gostring * json.value))
  (rep : cspReport) :
  forallb (fun kv => negb (isEnvelopeKey (fst kv))) ms = true ->
  decodeEnvelopeMembers ms rep = (rep, false).
Proof.
  induction ms as [|[key v] ms IH]; [reflexivity|].
  simpl. rewrite andb_true_iff, negb_true_iff. intros [Hk Hms].
  rewrite Hk. exact (IH Hms).
Qed.

Lemma json_Unmarshal_lacking (body : gostring) (v : json.value)
  (rep : cspReport) :
  json.parse body = Some v -> lacksEnvelopeKey v = true ->
  json_Unmarshal body rep = (rep, None).
Proof.
  intros Hp Hv. unfold json_Unmarshal. rewrite Hp.
  destruct v as [| | | | |ms]; try discriminate Hv; [reflexivity|].
  simpl. simpl in Hv. rewrite (decodeEnvelopeMembers_lacking ms rep Hv).
  reflexivity.
Qed.

(** C9, as the code has it. For a request of content type
    [application/csp-report] whose body is the JSON value [null] or a JSON
    object none of whose keys is [csp-report], be it up to case, the handler
    raises no 400: it calls the sink with the zero-valued report and, when
    the sink accepts it, writes the status 200; when the sink returns an
    error, the error hook is called with 500. *)
Theorem RouteHandler_no_envelope (jsonErrorText : json_errors.t -> gostring)
  (opts : list Opt) (w : http.ResponseWriter) (r : http.Request)
  (body : gostring) (v : json.value) :
  http.Get (http.ReqHeader r) (lit "Content-Type") = ReportContentType ->
  http.ReqBody r = http.BodyBytes body ->
  json.parse body = Some v -> lacksEnvelopeKey v = true ->
  let served := RouteHandler jsonErrorText opts w r in
  match ReportHandler_Report (chooseReportHandler opts) zeroReport with
  | None =>
      calls served = [CallReadAll; CallReport zeroReport; CallClose]
      /\ response served = http.WriteHeader w http.StatusOK
  | Some err =>
      calls served =
        [CallReadAll; CallReport zeroReport; CallError 500 err; CallClose]
      /\ response served =
         ErrorHandler_Error (chooseErrorHandler jsonErrorText opts) w r
           500%Z err
  end.
Proof.
  intros Hct Hbody Hp Hv. cbv zeta. unfold RouteHandler, routeHandler.
  rewrite Hct, eqb_refl. run_steps. rewrite Hbody. run_steps.
  rewrite (json_Unmarshal_lacking body v _ Hp Hv). run_steps.
  cbn [cspReport_Report].
  destruct (ReportHandler_Report (chooseReportHandler opts) zeroReport);
    run_steps.
  - destruct (ErrorHandler_Error _ w r _ _); split; reflexivity.
  - destruct (http.WriteHeader w http.StatusOK); split; reflexivity.
Qed.

Lemma RouteHandler_no_envelope_witness :
  calls (RouteHandler (fun _ => []) [] http.NewRecorder
           (reportRequest
              (http.BodyBytes (jsonText "{`report`:{`document-uri`:`x`}}"))))
  = [CallReadAll; CallReport zeroReport; CallClose]
  /\ response (RouteHandler (fun _ => []) [] http.NewRecorder
                 (reportRequest
                    (http.BodyBytes
                       (jsonText "{`report`:{`document-uri`:`x`}}"))))
     = Some (http.mkResponseWriter 200 [] [] true).
Proof.
  exact (RouteHandler_no_envelope (fun _ => []) [] http.NewRecorder
           (reportRequest
              (http.BodyBytes (jsonText "{`report`:{`document-uri`:`x`}}")))
           (jsonText "{`report`:{`document-uri`:`x`}}")
           (json.Object
              [(lit "report",
                json.Object [(lit "document-uri", json.String (lit "x"))])])
           eq_refl eq_refl eq_refl eq_refl).
Defined.

(** C9, as the claim words it, fails: the body [[]] is well-formed JSON
    without the key [csp-report], yet the handler calls the error hook with
    400 and never calls the sink. *)
Lemma RouteHandler_no_envelope_counterexample :
  json.parse (lit "[]") = Some (json.Array [])
  /\ calls (RouteHandler (fun _ => []) [] http.NewRecorder
              (reportRequest (http.BodyBytes (lit "[]"))))
     = [CallReadAll; CallError 400 (jsonError json_errors.UnmarshalTypeError);
        CallClose].
Proof. split; reflexivity. Qed.

(** * Further properties of the code *)

(** ** Splitting and joining *)

Lemma Split_nonempty (s : gostring) (c : ascii) : strings.Split s c <> [].
Proof.
  induction s as [|x s IH]; simpl; [discriminate|].
  destruct (Ascii.eqb x c); [discriminate|].
  destruct (strings.Split s c); [congruence | discriminate].
Qed.

Lemma consHead_app (x : ascii) (l l' : list gostring) :
  l <> [] -> strings.consHead x (l ++ l') = strings.consHead x l ++ l'.
Proof. destruct l; [congruence | reflexivity]. Qed.

(** The pieces of [a ++ c :: r] are those of [a] followed by those of
    [r]. *)
Lemma Split_app (a r : gostring) (c : ascii) :
  strings.Split (a ++ c :: r) c = strings.Split a c ++ strings.Split r c.
Proof.
  induction a as [|x a IH]; simpl.
  - rewrite Ascii.eqb_refl. reflexivity.
  - destruct (Ascii.eqb x c).
    + rewrite IH. reflexivity.
    + rewrite IH. apply consHead_app, Split_nonempty.
Qed.

(** Joining undoes splitting, on every string. *)
Lemma Join_Split (s : gostring) (c : ascii) :
  strings.Join (strings.Split s c) [c] = s.
Proof.
  induction s as [|x s IH]; [reflexivity|]. simpl.
  pose proof (Split_nonempty s c) as Hne.
  destruct (strings.Split s c) as [|p ps]; [congruence|].
  destruct (Ascii.eqb x c) eqn:E.
  - apply Ascii.eqb_eq in E. subst x.
    change (strings.Join ([] :: p :: ps) [c])
      with (c :: strings.Join (p :: ps) [c]).
    rewrite IH. reflexivity.
  - rewrite <- IH. destruct ps; reflexivity.
Qed.

Lemma Split_pieces (s : gostring) (c : ascii) :
  Forall (fun p => ~ In c p) (strings.Split s c).
Proof.
  induction s as [|x s IH]; simpl; [repeat constructor; intros []|].
  destruct (Ascii.eqb x c) eqn:E.
  - constructor; [intros []|exact IH].
  - apply Ascii.eqb_neq in E.
    destruct (strings.Split s c) as [|p ps]; simpl.
    + repeat constructor. intros [H|[]]. congruence.
    + inversion IH as [|? ? Hp Hps]; subst. constructor; [|exact Hps].
      intros [H|H]; [congruence | exact (Hp H)].
Qed.

Lemma Split_length (s : gostring) (c : ascii) :
  length (strings.Split s c) = S (count_occ ascii_dec s c).
Proof.
  induction s as [|x s IH]; [reflexivity|]. simpl.
  destruct (Ascii.eqb x c) eqn:E.
  - apply Ascii.eqb_eq in E. subst x.
    destruct (ascii_dec c c); [|congruence]. simpl. rewrite IH. reflexivity.
  - apply Ascii.eqb_neq in E.
    destruct (ascii_dec x c); [congruence|]. rewrite <- IH.
    pose proof (Split_nonempty s c).
    destruct (strings.Split s c); [congruence | reflexivity].
Qed.

(** ** Trimming reaches a fixed point *)

Section TrimDone.

Variable tbl : list gostring.
Hypothesis tbl_nonempty : ~ In [] tbl.

Lemma dropOne_nil : strings.dropOne tbl [] = None.
Proof.
  apply dropOne_None_intro. intros e r He H.
  symmetry in H. apply app_eq_nil in H. destruct H as [-> _].
  exact (tbl_nonempty He).
Qed.

Lemma dropOne_shorter (s r : gostring) :
  strings.dropOne tbl s = Some r -> length r < length s.
Proof.
  intros E. destruct (dropOne_Some _ _ _ E) as (e & He & ->).
  destruct e as [|x e]; [exfalso; exact (tbl_nonempty He)|].
  rewrite length_app. simpl. lia.
Qed.

(** With fuel for every byte, nothing is left to remove. *)
Lemma trimFuel_done (n : nat) (s : gostring) :
  length s <= n -> strings.dropOne tbl (strings.trimFuel tbl n s) = None.
Proof.
  revert s; induction n as [|n IH]; intros s Hn; simpl.
  - destruct s; [apply dropOne_nil | simpl in Hn; lia].
  - destruct (strings.dropOne tbl s) as [r|] eqn:E; [|exact E].
    apply IH. pose proof (dropOne_shorter _ _ E). lia.
Qed.

(** A string that is removed whole ends with an element of the table. *)
Lemma trimFuel_all (n : nat) (s : gostring) :
  s <> [] -> strings.trimFuel tbl n s = [] ->
  exists a e, In e tbl /\ s = a ++ e.
Proof.
  revert s; induction n as [|n IH]; intros s Hs; simpl; [congruence|].
  destruct (strings.dropOne tbl s) as [r|] eqn:E; [|congruence].
  destruct (dropOne_Some _ _ _ E) as (e & He & ->). intros H.
  destruct r as [|x r].
  - exists [], e. rewrite app_nil_r. auto.
  - destruct (IH (x :: r) ltac:(discriminate) H) as (a & e' & He' & Hr).
    exists (e ++ a), e'. rewrite Hr, app_assoc. auto.
Qed.

Lemma dropOne_prefix (s q : gostring) :
  strings.dropOne tbl (s ++ q) = None -> strings.dropOne tbl s = None.
Proof.
  intros H. apply dropOne_None_intro. intros e r He Hs. subst s.
  apply (dropOne_None _ _ H e (r ++ q) He). rewrite app_assoc. reflexivity.
Qed.

End TrimDone.

Lemma In_revRunes (e : gostring) :
  In e strings.spaceRunes -> In (rev e) strings.revRunes.
Proof. apply in_map. Qed.

Lemma revRunes_In (e : gostring) :
  In e strings.revRunes -> In (rev e) strings.spaceRunes.
Proof.
  unfold strings.revRunes. rewrite in_map_iff. intros (x & <- & Hx).
  rewrite rev_involutive. exact Hx.
Qed.

Lemma TrimLeftSpace_done (s : gostring) :
  strings.dropOne strings.spaceRunes (strings.TrimLeftSpace s) = None.
Proof. apply trimFuel_done; [exact spaceRunes_nonempty | lia]. Qed.

(** What [TrimSpace] returns has no white space at either end. *)
Lemma TrimSpace_done (s : gostring) :
  strings.dropOne strings.spaceRunes (strings.TrimSpace s) = None
  /\ strings.dropOne strings.revRunes (rev (strings.TrimSpace s)) = None.
Proof.
  unfold strings.TrimSpace. set (x := strings.TrimLeftSpace s). split.
  - destruct (TrimRightSpace_prefix x) as (q & Hq).
    apply (dropOne_prefix _ _ q). rewrite <- Hq. apply TrimLeftSpace_done.
  - unfold strings.TrimRightSpace. rewrite rev_involutive.
    apply trimFuel_done; [exact revRunes_nonempty|].
    rewrite length_rev. lia.
Qed.

Lemma TrimSpace_idempotent (s : gostring) :
  strings.TrimSpace (strings.TrimSpace s) = strings.TrimSpace s.
Proof. apply TrimSpace_fixed; apply TrimSpace_done. Qed.

(** A string that is not empty and trims to the empty string ends with a
    space rune. *)
Lemma TrimSpace_nil (s : gostring) :
  s <> [] -> strings.TrimSpace s = [] ->
  strings.dropOne strings.revRunes (rev s) <> None.
Proof.
  intros Hs H. unfold strings.TrimSpace in H.
  assert (Hend : exists a e, In e strings.spaceRunes /\ s = a ++ e).
  { destruct (strings.TrimLeftSpace s) as [|y x] eqn:Ex.
    - apply (trimFuel_all _ (length s) s Hs Ex).
    - exfalso. unfold strings.TrimRightSpace in H.
      apply (f_equal (@rev ascii)) in H. rewrite rev_involutive in H.
      simpl rev at 2 in H.
      apply trimFuel_all in H;
        [ | intros E; apply (f_equal (@rev ascii)) in E;
            rewrite rev_involutive in E; discriminate E ].
      destruct H as (a & e & He & Hr).
      apply (f_equal (@rev ascii)) in Hr.
      rewrite rev_involutive, rev_app_distr in Hr.
      pose proof (TrimLeftSpace_done s) as Hd. rewrite Ex, Hr in Hd.
      exact (dropOne_None _ _ Hd (rev e) (rev a) (revRunes_In e He) eq_refl). }
  destruct Hend as (a & e & He & ->). intros Hn.
  apply (dropOne_None _ _ Hn (rev e) (rev a) (In_revRunes e He)).
  apply rev_app_distr.
Qed.

(** ** Source lists *)

(** X1. Encoding a decoded source list gives the text back, whatever the
    text: joining with a space undoes splitting at spaces. *)
Theorem SourceList_text_roundTrip (text : gostring) :
  fst (SourceList_MarshalText (fst (SourceList_UnmarshalText text))) = text.
Proof. apply (Join_Split text " "). Qed.

Lemma spaceFree_spec (l : SourceList) :
  spaceFree l = true -> l <> [] /\ Forall (fun t => ~ In " " t) l.
Proof.
  unfold spaceFree. rewrite andb_true_iff. intros [Hne H]. split.
  - destruct l; [discriminate Hne | discriminate].
  - apply Forall_forall. intros t Ht. rewrite forallb_forall in H.
    apply existsb_eqb_In, negb_true_iff, H, Ht.
Qed.

(** X2. Decoding an encoded source list gives the list back when the list
    is not empty and no token has a space. *)
Theorem SourceList_roundTrip (l : SourceList) :
  spaceFree l = true ->
  fst (SourceList_UnmarshalText (fst (SourceList_MarshalText l))) = l.
Proof.
  intros H. destruct (spaceFree_spec l H) as [Hne Hl].
  apply (Split_Join l " " Hne Hl).
Qed.

Lemma SourceList_roundTrip_witness :
  spaceFree [SourceSelf; lit "*.trusted.com"] = true
  /\ fst (SourceList_UnmarshalText
            (fst (SourceList_MarshalText [SourceSelf; lit "*.trusted.com"])))
     = [SourceSelf; lit "*.trusted.com"].
Proof.
  split; [reflexivity|].
  apply (SourceList_roundTrip [SourceSelf; lit "*.trusted.com"]).
  reflexivity.
Defined.

(** X3. A decoded source list is never empty: it has one token more than
    the text has spaces.  So the empty list, which encodes to the empty
    text, comes back as the list of one empty token. *)
Theorem SourceList_UnmarshalText_length (text : gostring) :
  length (fst (SourceList_UnmarshalText text))
  = S (count_occ ascii_dec text " ")
  /\ fst (SourceList_UnmarshalText (fst (SourceList_MarshalText []))) = [[]].
Proof. split; [apply Split_length | reflexivity]. Qed.

(** ** The encoder *)

(** X4. The encoded text is made of the entries [name value] of the
    present slots, in the fixed order [default-src], [child-src],
    [connect-src], [font-src], [frame-src], [img-src], [manifest-src],
    [media-src], [object-src], [script-src], [style-src], [worker-src],
    [report-to], joined by a semicolon and a space, and trimmed. *)
Theorem MarshalText_in_order (c : CSP) :
  fst (MarshalText c)
  = strings.TrimSpace (strings.Join (entries c) (lit "; "))
  /\ map slotName allSlots
     = [defaultSrc; childSrc; connectSrc; fontSrc; frameSrc; imgSrc;
        manifestSrc; mediaSrc; objectSrc; scriptSrc; styleSrc; workerSrc;
        reportTo].
Proof. split; [rewrite MarshalText_entries|]; reflexivity. Qed.

Lemma noSlotPresent_false (c : CSP) :
  noSlotPresent c = false -> exists s, present s c = true.
Proof.
  unfold noSlotPresent. intros H.
  destruct (existsb (fun s => present s c) allSlots) eqn:E.
  - apply existsb_exists in E. destruct E as (s & _ & Hs). eauto.
  - exfalso. rewrite <- not_true_iff_false in H. apply H.
    apply forallb_forall. intros s Hs.
    destruct (present s c) eqn:Hp; [|reflexivity].
    rewrite <- not_true_iff_false in E. exfalso. apply E.
    apply existsb_exists. eauto.
Qed.

(** X5. The encoded text is empty exactly when no slot is present. *)
Theorem MarshalText_empty (c : CSP) :
  fst (MarshalText c) = [] <-> noSlotPresent c = true.
Proof.
  split.
  - intros H. destruct (noSlotPresent c) eqn:E; [reflexivity|]. exfalso.
    destruct (noSlotPresent_false c E) as (s & Hs).
    pose proof (present_Contains c s Hs) as Hc. rewrite H in Hc.
    rewrite Contains_nil in Hc by apply slotName_nonempty. discriminate.
  - intros H. rewrite MarshalText_entries, (noSlotPresent_entries c H).
    reflexivity.
Qed.

(** X6. The encoded text has no white space at either end, whatever the
    tokens are: trimming it again changes nothing. *)
Theorem MarshalText_trimmed (c : CSP) :
  strings.TrimSpace (fst (MarshalText c)) = fst (MarshalText c).
Proof. rewrite MarshalText_entries. apply TrimSpace_idempotent. Qed.

Lemma MarshalText_empty_witness :
  (fst (MarshalText zeroCSP) = [] -> noSlotPresent zeroCSP = true)
  /\ fst (MarshalText zeroCSP) = [].
Proof.
  split.
  - exact (proj1 (MarshalText_empty zeroCSP)).
  - exact (proj2 (MarshalText_empty zeroCSP) eq_refl).
Defined.

(** ** The decoder *)

Lemma UnmarshalText_fold (c : CSP) (text : gostring) :
  fst (UnmarshalText c text)
  = fold_left unmarshalPolicy (strings.Split text ";") c.
Proof. reflexivity. Qed.

(** X7. Decoding two texts joined by a semicolon is decoding the first
    and then, into the result, the second. *)
Theorem UnmarshalText_app (c : CSP) (t1 t2 : gostring) :
  fst (UnmarshalText c (t1 ++ ";" :: t2))
  = fst (UnmarshalText (fst (UnmarshalText c t1)) t2).
Proof.
  rewrite !UnmarshalText_fold, Split_app. apply fold_left_app.
Qed.

Lemma cut_Some (s a r : gostring) (c : ascii) :
  cut s c = Some (a, r) -> s = a ++ c :: r.
Proof.
  revert a; induction s as [|x s IH]; intros a; simpl; [discriminate|].
  destruct (Ascii.eqb x c) eqn:E.
  - apply Ascii.eqb_eq in E. intros [= <- <-]. subst x. reflexivity.
  - destruct (cut s c) as [[a' r']|]; [|discriminate].
    intros [= <- <-]. rewrite (IH a' eq_refl). reflexivity.
Qed.

Lemma TrimSpace_In (x : ascii) (s : gostring) :
  In x (strings.TrimSpace s) -> In x s.
Proof.
  intros H. destruct (TrimSpace_infix s) as (a & z & E). rewrite E.
  apply in_or_app. right. apply in_or_app. left. exact H.
Qed.

(** The value of a piece is never empty, has no white space at its ends,
    and has no semicolon when the piece has none. *)
Lemma pieceNameValue_value (p k v : gostring) :
  pieceNameValue p = Some (k, v) ->
  noSpaceAtEnds v /\ (~ In ";" p -> ~ In ";" v).
Proof.
  unfold pieceNameValue.
  destruct (cut (strings.TrimSpace p) " ") as [[name rest]|] eqn:E;
    [|discriminate].
  intros [= <- <-]. apply cut_Some in E.
  destruct (TrimSpace_done p) as [_ Hend]. rewrite E in Hend.
  replace (rev (name ++ " " :: rest)) with (rev rest ++ " " :: rev name)
    in Hend
    by (rewrite rev_app_distr; simpl; rewrite <- app_assoc; reflexivity).
  split; [split; [|apply TrimSpace_done]|].
  - intros Hv. destruct rest as [|y rest].
    + assert (H : strings.dropOne strings.revRunes (" " :: rev name)
                  = Some (rev name)) by reflexivity.
      cbn [rev app] in Hend. congruence.
    + apply (TrimSpace_nil (y :: rest) ltac:(discriminate)) in Hv.
      apply Hv. apply (dropOne_prefix _ _ _ Hend).
  - intros Hp Hv. apply Hp. apply TrimSpace_In. rewrite E.
    apply in_or_app. right. right. apply TrimSpace_In, Hv.
Qed.

Lemma slotText_assign (s : Slot) (v : gostring) (c : CSP) :
  slotText s (assign s v c) = v.
Proof.
  destruct s as [d|]; [|reflexivity].
  assert (H : sources d (setSources d (strings.Split v " ") c)
              = strings.Split v " ") by (destruct d; reflexivity).
  simpl. rewrite H. apply (Join_Split v " ").
Qed.

Lemma slotGet_present (s : Slot) (c c' : CSP) :
  slotGet s c' = slotGet s c ->
  present s c' = present s c /\ slotText s c' = slotText s c.
Proof.
  destruct s as [d|]; simpl; [intros ->; auto|].
  intros [= ->]. auto.
Qed.

(** An assignment of a value as pieces have them keeps a policy
    canonical. *)
Lemma assign_canonical (s : Slot) (v : gostring) (c : CSP) :
  canonical c -> noSpaceAtEnds v -> ~ In ";" v -> canonical (assign s v c).
Proof.
  intros Hc Hv Hsemi s' Hs'.
  destruct (Slot_eqb s' s) eqn:E.
  - apply Slot_eqb_eq in E. subst s'. rewrite slotText_assign.
    split; [exact Hv|]. split; [exact Hsemi|].
    intros c0. rewrite !slotGet_assign, Slot_eqb_refl. reflexivity.
  - assert (Hg : slotGet s' (assign s v c) = slotGet s' c)
      by (rewrite slotGet_assign, E; reflexivity).
    destruct (slotGet_present _ _ _ Hg) as [Hp Ht].
    rewrite Hp in Hs'. rewrite Ht, Hg. exact (Hc s' Hs').
Qed.

Lemma decodePiece_canonical (c : CSP) (p : gostring) :
  canonical c -> ~ In ";" p -> canonical (decodePiece c p).
Proof.
  intros Hc Hp. unfold decodePiece.
  destruct (pieceNameValue p) as [[k v]|] eqn:E; [|exact Hc].
  destruct (slotOfName k) as [s|]; [|exact Hc].
  destruct (pieceNameValue_value p k v E) as [Hv Hsemi].
  apply assign_canonical; auto.
Qed.

Lemma fold_decodePiece_canonical (pieces : list gostring) (c : CSP) :
  Forall (fun p => ~ In ";" p) pieces -> canonical c ->
  canonical (fold_left decodePiece pieces c).
Proof.
  revert c; induction pieces as [|p l IH]; intros c H Hc; [exact Hc|].
  inversion H as [|? ? Hp Hl]; subst. simpl.
  apply IH; [exact Hl | apply decodePiece_canonical; assumption].
Qed.

Lemma zeroCSP_canonical : canonical zeroCSP.
Proof. intros [[]|] H; discriminate H. Qed.

(** Whatever is decoded into a canonical policy, the result is
    canonical. *)
Lemma UnmarshalText_canonical (c : CSP) (text : gostring) :
  canonical c -> canonical (fst (UnmarshalText c text)).
Proof.
  intros Hc. rewrite UnmarshalText_decodePiece.
  apply fold_decodePiece_canonical; [apply Split_pieces | exact Hc].
Qed.

Lemma slotGet_sameDirectives (c c' : CSP) :
  (forall s, slotGet s c' = slotGet s c) -> sameDirectives c c'.
Proof.
  intros H. unfold sameDirectives.
  pose proof (H SlotReportTo) as HR. simpl in HR. injection HR as HR.
  repeat split;
    [ exact (H (SourcesOf DChildSrc)) | exact (H (SourcesOf DConnectSrc))
    | exact (H (SourcesOf DDefaultSrc)) | exact (H (SourcesOf DFontSrc))
    | exact (H (SourcesOf DFrameSrc)) | exact (H (SourcesOf DImgSrc))
    | exact (H (SourcesOf DManifestSrc)) | exact (H (SourcesOf DMediaSrc))
    | exact (H (SourcesOf DObjectSrc)) | exact (H (SourcesOf DScriptSrc))
    | exact (H (SourcesOf DStyleSrc)) | exact (H (SourcesOf DWorkerSrc))
    | exact HR ].
Qed.

(** The encoded text depends on the thirteen directive fields only. *)
Lemma MarshalText_sameDirectives (c c' : CSP) :
  sameDirectives c c' -> MarshalText c' = MarshalText c.
Proof.
  unfold sameDirectives, MarshalText.
  intros (-> & -> & -> & -> & -> & -> & -> & -> & -> & -> & -> & -> & ->).
  reflexivity.
Qed.

(** X8. What is decoded into a zero-valued policy is in normal form:
    encoding it and decoding the text again gives the same thirteen
    directive fields, and the same text. *)
Theorem UnmarshalText_normal_form (text : gostring) :
  let P := fst (UnmarshalText zeroCSP text) in
  sameDirectives P (roundTrip P)
  /\ fst (MarshalText (roundTrip P)) = fst (MarshalText P).
Proof.
  cbv zeta. set (P := fst (UnmarshalText zeroCSP text)).
  assert (H : sameDirectives P (roundTrip P)).
  { apply slotGet_sameDirectives. intros s. apply roundTrip_canonical.
    apply UnmarshalText_canonical, zeroCSP_canonical. }
  split; [exact H|]. rewrite (MarshalText_sameDirectives _ _ H). reflexivity.
Qed.

(** X9. For a clean policy, encoding what the encoded text decodes to
    gives the encoded text again. *)
Theorem MarshalText_roundTrip (P : CSP) :
  cleanPolicy P = true ->
  fst (MarshalText (roundTrip P)) = fst (MarshalText P).
Proof.
  intros HP. f_equal. apply MarshalText_sameDirectives.
  apply slotGet_sameDirectives. intros s. apply roundTrip_slotGet, HP.
Qed.

Lemma MarshalText_roundTrip_witness :
  cleanPolicy examplePolicy = true
  /\ fst (MarshalText (roundTrip examplePolicy))
     = fst (MarshalText examplePolicy).
Proof.
  split; [reflexivity|].
  apply (MarshalText_roundTrip examplePolicy). reflexivity.
Defined.





Lemma decodePiece_mode (c : CSP) (p : gostring) :
  ReportOnly (decodePiece c p) = ReportOnly c /\ h (decodePiece c p) = h c.
Proof.
  unfold decodePiece. destruct (pieceNameValue p) as [[k v]|]; [|auto].
  destruct (slotOfName k) as [[[]|]|]; auto.
Qed.

(** X11. Decoding never touches what is no directive: the report-only
    flag and the wrapped handler stay as they were, whatever the text. *)
Theorem UnmarshalText_keeps_mode (c : CSP) (text : gostring) :
  ReportOnly (fst (UnmarshalText c text)) = ReportOnly c
  /\ h (fst (UnmarshalText c text)) = h c.
Proof.
  rewrite UnmarshalText_decodePiece.
  revert c. induction (strings.Split text ";") as [|p l IH]; intros c;
    [auto|].
  simpl. destruct (IH (decodePiece c p)) as [H1 H2].
  destruct (decodePiece_mode c p) as [H3 H4]. split; congruence.
Qed.

Lemma namesNothing_pieces (text : gostring) :
  namesNothing text = true ->
  Forall (fun p => pieceSlot p = None) (strings.Split text ";").
Proof.
  unfold namesNothing. rewrite forallb_forall. intros H.
  apply Forall_forall. intros p Hp.
  destruct (pieceSlot p) as [s|] eqn:E; [|reflexivity]. exfalso.
  specialize (H s (allSlots_all s)). apply negb_true_iff in H.
  pose proof (names_false text s H) as Hf. rewrite Forall_forall in Hf.
  exact (Hf p Hp E).
Qed.

Lemma decodePiece_unnamed (c : CSP) (p : gostring) :
  pieceSlot p = None -> decodePiece c p = c.
Proof.
  unfold pieceSlot, decodePiece.
  destruct (pieceNameValue p) as [[k v]|]; [|reflexivity].
  intros ->. reflexivity.
Qed.

(** X19. A text none of whose pieces names a directive of the table (the
    empty text, or directives the code does not know) leaves the policy
    exactly as it was. *)
Theorem UnmarshalText_unknown (c : CSP) (text : gostring) :
  namesNothing text = true -> fst (UnmarshalText c text) = c.
Proof.
  intros H. rewrite UnmarshalText_decodePiece.
  pose proof (namesNothing_pieces text H) as Hp.
  revert c. induction Hp as [|p l Hp _ IH]; intros c; [reflexivity|].
  simpl. rewrite (decodePiece_unnamed c p Hp). apply IH.
Qed.

Lemma UnmarshalText_unknown_witness :
  fst (UnmarshalText Default []) = Default
  /\ fst (UnmarshalText Default
            (lit "frame-ancestors 'none'; upgrade-insecure-requests"))
     = Default.
Proof.
  split.
  - apply (UnmarshalText_unknown Default []). reflexivity.
  - apply (UnmarshalText_unknown Default
             (lit "frame-ancestors 'none'; upgrade-insecure-requests")).
    reflexivity.
Defined.

(** ** The middleware, further *)

Lemma lookup_delete_other (hdr : http.Header) (k k' : gostring) :
  k' <> k -> http.lookup (http.delete hdr k) k' = http.lookup hdr k'.
Proof.
  intros Hk. induction hdr as [|[k0 v] hdr IH]; [reflexivity|].
  unfold http.delete in *. simpl.
  destruct (strings.eqb k0 k) eqn:E; simpl.
  - apply eqb_eq in E. subst k0.
    assert (E' : strings.eqb k k' = false) by (apply eqb_neq; congruence).
    rewrite E'. exact IH.
  - destruct (strings.eqb k0 k'); [reflexivity | exact IH].
Qed.

(** X12. What the wrapped handler receives: the response writer it is
    given holds the encoded policy as the one value of the policy header,
    whatever values that header had before; every other header, the status
    and the body are as the wrapper got them. *)
Theorem ServeHTTP_header (c : CSP) (next : http.Handler)
  (w : http.ResponseWriter) (r : http.Request) :
  h c = Some next ->
  let key := if ReportOnly c then HeaderReportOnly else HeaderPolicy in
  exists w',
    ServeHTTP c w r = next w' r
    /\ http.lookup (http.HeaderMap w') key = Some [fst (MarshalText c)]
    /\ (forall key', http.CanonicalMIMEHeaderKey key' <> key ->
          http.Get (http.HeaderMap w') key' = http.Get (http.HeaderMap w) key')
    /\ http.Code w' = http.Code w /\ http.RespBody w' = http.RespBody w
    /\ http.wroteHeader w' = http.wroteHeader w.
Proof.
  intros Hh. cbv zeta.
  exists (http.SetHeader w
            (if ReportOnly c then HeaderReportOnly else HeaderPolicy)
            (fst (MarshalText c))).
  split; [unfold ServeHTTP; rewrite Hh; reflexivity|].
  assert (Hk : http.CanonicalMIMEHeaderKey
                 (if ReportOnly c then HeaderReportOnly else HeaderPolicy)
               = (if ReportOnly c then HeaderReportOnly else HeaderPolicy))
    by (destruct (ReportOnly c); reflexivity).
  unfold http.SetHeader, http.Set_. cbn [http.HeaderMap http.Code
    http.RespBody http.wroteHeader]. rewrite Hk.
  split; [simpl; rewrite eqb_refl; reflexivity|].
  split; [|auto].
  intros key' Hk'. unfold http.Get. simpl.
  assert (E : strings.eqb
                (if ReportOnly c then HeaderReportOnly else HeaderPolicy)
                (http.CanonicalMIMEHeaderKey key') = false)
    by (apply eqb_neq; congruence).
  rewrite E, lookup_delete_other by exact Hk'. reflexivity.
Qed.

Lemma ServeHTTP_header_witness :
  exists w',
    ServeHTTP (set_h (Some (fun w _ => Some w)) Default)
      (http.mkResponseWriter 200
         [(HeaderPolicy, [lit "default-src *"; lit "img-src *"])] [] false)
      plainRequest = Some w'
    /\ http.lookup (http.HeaderMap w') HeaderPolicy
       = Some [fst (MarshalText Default)].
Proof.
  destruct (ServeHTTP_header (set_h (Some (fun w _ => Some w)) Default)
              (fun w _ => Some w)
              (http.mkResponseWriter 200
                 [(HeaderPolicy, [lit "default-src *"; lit "img-src *"])]
                 [] false)
              plainRequest eq_refl) as (w' & H1 & H2 & _).
  exists w'. split; [exact H1 | exact H2].
Defined.

(** X13. Without a wrapped handler [ServeHTTP] panics: it panics exactly
    when [Handler] was never called or the wrapped handler itself panics on
    the response writer with the header set. *)
Theorem ServeHTTP_panics (c : CSP) (w : http.ResponseWriter)
  (r : http.Request) :
  let key := if ReportOnly c then HeaderReportOnly else HeaderPolicy in
  let w' := http.SetHeader w key (fst (MarshalText c)) in
  ServeHTTP c w r = None <->
  h c = None \/ exists next, h c = Some next /\ next w' r = None.
Proof.
  cbv zeta. unfold ServeHTTP.
  change (MarshalText c) with (fst (MarshalText c), @None error) at 1.
  cbv iota beta. destruct (h c) as [next|]; split.
  - intros H. right. exists next. auto.
  - intros [H|(n & [= <-] & H)]; [discriminate | exact H].
  - auto.
  - auto.
Qed.

Lemma ServeHTTP_panics_witness :
  ServeHTTP Default http.NewRecorder plainRequest = None.
Proof.
  apply (proj2 (ServeHTTP_panics Default http.NewRecorder plainRequest)).
  left. reflexivity.
Defined.

(** ** The report endpoint, further *)

(** X14. The default error hook never panics and never uses the status:
    on every response writer and for every status, valid or not, it appends
    the text of the error to the body and leaves the status at the one
    already written, or at 200 when none was. *)
Theorem defaultErrorHandler_any_status
  (jsonErrorText : json_errors.t -> gostring) (w : http.ResponseWriter)
  (r : http.Request) (status status' : Z) (err : error) :
  defaultErrorHandler_Error jsonErrorText w r status err
  = Some (http.mkResponseWriter
            (if http.wroteHeader w then http.Code w else 200%Z)
            (http.HeaderMap w)
            (http.RespBody w ++ Error jsonErrorText err) true)
  /\ defaultErrorHandler_Error jsonErrorText w r status err
     = defaultErrorHandler_Error jsonErrorText w r status' err.
Proof. split; reflexivity. Qed.

(** X15. The success path, for every request: with the right content
    type, a readable body that decodes into the envelope and a sink that
    accepts the report, the body is read, the sink is called once with the
    decoded report, no error hook is called, the status 200 is written and
    the body is closed; nothing is written to the response body. *)
Theorem RouteHandler_success (jsonErrorText : json_errors.t -> gostring)
  (opts : list Opt) (w : http.ResponseWriter) (r : http.Request)
  (body : gostring) (rep : cspReport) :
  http.Get (http.ReqHeader r) (lit "Content-Type") = ReportContentType ->
  http.ReqBody r = http.BodyBytes body ->
  json_Unmarshal body (mk_cspReport zeroReport) = (rep, None) ->
  ReportHandler_Report (chooseReportHandler opts) (cspReport_Report rep)
  = None ->
  let served := RouteHandler jsonErrorText opts w r in
  calls served = [CallReadAll; CallReport (cspReport_Report rep); CallClose]
  /\ response served = http.WriteHeader w http.StatusOK
  /\ (http.wroteHeader w = false ->
      response served
      = Some (http.mkResponseWriter 200 (http.HeaderMap w) (http.RespBody w)
                true)).
Proof.
  intros Hct Hbody Hdec Hsink. cbv zeta. unfold RouteHandler, routeHandler.
  rewrite Hct, eqb_refl. run_steps. rewrite Hbody. run_steps.
  rewrite Hdec. run_steps. rewrite Hsink. run_steps.
  assert (Hw : http.wroteHeader w = false ->
               http.WriteHeader w http.StatusOK
               = Some (http.mkResponseWriter 200 (http.HeaderMap w)
                         (http.RespBody w) true)).
  { intros E. unfold http.WriteHeader. rewrite E. reflexivity. }
  destruct (http.WriteHeader w http.StatusOK); repeat split; auto.
Qed.

Lemma RouteHandler_success_witness :
  calls (RouteHandler (fun _ => []) [mkOpt (Some MockReporter) None]
           http.NewRecorder
           (reportRequest
              (http.BodyBytes
                 (jsonText "{`csp-report`:{`status`:200,`referrer`:`r`}}"))))
  = [CallReadAll;
     CallReport (mkReport [] (lit "r") [] [] [] [] [] 200); CallClose].
Proof.
  apply (RouteHandler_success (fun _ => []) [mkOpt (Some MockReporter) None]
           http.NewRecorder
           (reportRequest
              (http.BodyBytes
                 (jsonText "{`csp-report`:{`status`:200,`referrer`:`r`}}")))
           (jsonText "{`csp-report`:{`status`:200,`referrer`:`r`}}")
           (mk_cspReport (mkReport [] (lit "r") [] [] [] [] [] 200))
           eq_refl eq_refl eq_refl eq_refl).
Defined.

(** X16. The discipline of the handler, for every request and every pair
    of hooks: the error hook is called at most once and the sink at most
    once; the sink is called only after the body was read; the body is read
    at most once, and closed exactly when it was read, as the last thing the
    handler does. *)
Theorem RouteHandler_discipline (jsonErrorText : json_errors.t -> gostring)
  (opts : list Opt) (w : http.ResponseWriter) (r : http.Request) :
  let cs := calls (RouteHandler jsonErrorText opts w r) in
  countCalls isCallError cs <= 1
  /\ countCalls isCallReport cs <= countCalls isCallReadAll cs
  /\ countCalls isCallReadAll cs <= 1
  /\ countCalls isCallClose cs = countCalls isCallReadAll cs
  /\ (countCalls isCallReadAll cs = 0
      \/ (hd CallClose cs = CallReadAll /\ last cs CallReadAll = CallClose)).
Proof.
  cbv zeta. unfold RouteHandler, routeHandler.
  destruct (negb (strings.eqb (http.Get (http.ReqHeader r)
                                 (lit "Content-Type")) ReportContentType)).
  - run_steps.
    destruct (ErrorHandler_Error _ w r _ _); cbv; auto 10.
  - run_steps. destruct (http.ReqBody r) as [body|err]; run_steps.
    + destruct (json_Unmarshal body (mk_cspReport zeroReport))
        as [rep [e|]]; run_steps.
      * destruct (ErrorHandler_Error _ w r _ _); cbv; auto 10.
      * destruct (ReportHandler_Report _ _); run_steps.
        -- destruct (ErrorHandler_Error _ w r _ _); cbv; auto 10.
        -- destruct (http.WriteHeader w http.StatusOK); cbv; auto 10.
    + destruct (ErrorHandler_Error _ w r _ _); cbv; auto 10.
Qed.

(** X17. With the default hooks and a fresh response writer the handler
    never panics and every request, accepted or refused, ends with the
    status 200. *)
Theorem RouteHandler_default_status
  (jsonErrorText : json_errors.t -> gostring) (r : http.Request) :
  exists w',
    response (RouteHandler jsonErrorText [] http.NewRecorder r) = Some w'
    /\ http.Code w' = 200%Z /\ http.wroteHeader w' = true.
Proof.
  unfold RouteHandler, routeHandler.
  destruct (negb (strings.eqb (http.Get (http.ReqHeader r)
                                 (lit "Content-Type")) ReportContentType)).
  - run_steps. eexists. split; [reflexivity | split; reflexivity].
  - run_steps. destruct (http.ReqBody r) as [body|err]; run_steps.
    + destruct (json_Unmarshal body (mk_cspReport zeroReport))
        as [rep [e|]]; run_steps;
        eexists; split; reflexivity || (split; reflexivity).
    + eexists. split; [reflexivity | split; reflexivity].
Qed.

Lemma last_default {A : Type} (l : list A) (x d d' : A) :
  last (x :: l) d = last (x :: l) d'.
Proof.
  revert x; induction l as [|y l IH]; intros x; [reflexivity|].
  change (last (x :: y :: l) d) with (last (y :: l) d).
  change (last (x :: y :: l) d') with (last (y :: l) d').
  apply IH.
Qed.

Lemma last_cons {A : Type} (l : list A) (x d : A) :
  last (x :: l) d = last l x.
Proof.
  destruct l as [|y l]; [reflexivity|].
  change (last (x :: y :: l) d) with (last (y :: l) d).
  apply last_default.
Qed.

Lemma chooseReportHandler_last (opts : list Opt) (d : ReportHandler) :
  fold_left
    (fun cur opt =>
       match asReportHandler opt with Some r => r | None => cur end) opts d
  = last (suppliedReportHandlers opts) d.
Proof.
  revert d; induction opts as [|o opts IH]; intros d; [reflexivity|].
  simpl. rewrite IH. destruct (asReportHandler o); [|reflexivity].
  simpl app. rewrite last_cons. reflexivity.
Qed.

Lemma chooseErrorHandler_last (opts : list Opt) (d : ErrorHandler) :
  fold_left
    (fun cur opt =>
       match asErrorHandler opt with Some e => e | None => cur end) opts d
  = last (suppliedErrorHandlers opts) d.
Proof.
  revert d; induction opts as [|o opts IH]; intros d; [reflexivity|].
  simpl. rewrite IH. destruct (asErrorHandler o); [|reflexivity].
  simpl app. rewrite last_cons. reflexivity.
Qed.

(** X18. The options of [RouteHandler]: the sink in use is the last
    option that is a sink, the error hook in use the last option that is an
    error hook, and the default one of a kind when no option is of that
    kind; an option that is neither is ignored. *)
Theorem RouteHandler_options (jsonErrorText : json_errors.t -> gostring)
  (opts : list Opt) :
  chooseReportHandler opts
  = last (suppliedReportHandlers opts) defaultLogReporter
  /\ chooseErrorHandler jsonErrorText opts
     = last (suppliedErrorHandlers opts) (defaultErrorHandler jsonErrorText).
Proof.
  split; [apply chooseReportHandler_last | apply chooseErrorHandler_last].
Qed.
